(** * Dataset state and view pipeline of the presentation site (script.js)

    A shallow embedding of the data-management part of [script.js]: the CSV
    parser, the quality calculator, the dataset loader and the
    pagination / filter state of the two table views; then of what the
    page draws from that state (table pages, page info, quality
    indicators), of the column analytics and of the zoom and pan state of
    the flowchart viewer.

    Modelling conventions.
    - Text is ASCII: a JS string is a [string], [trim] strips the ASCII
      white space and line terminators, [toLowerCase] maps [A-Z] to [a-z].
    - A row (a JS object filled by [row[header] = value]) is held as the
      finite map of its own properties, from column name to a value that
      is [null] ([None]) or a string ([Some s]). The order in which an
      object lists its properties is not held, and nothing below depends
      on it.
    - [Object.prototype] is the one of the language, with no property
      added or changed by the page.
    - The page is held as data: a table body as the list of the items its
      rows are built from, an element as the few properties the code
      writes.
    - Counts and page numbers are integers far below 2^53 and are held in
      [Z]. Quotients are taken in exact rational arithmetic ([Q]); a
      binary64 quotient differs from the exact one by a relative error
      below 2^-52, which can change a digit printed by [toFixed(1)] only
      when the exact percentage sits on a rounding tie. *)

From Stdlib Require Import ZArith QArith Qround Qabs Lqa Lia.
From Stdlib Require Import String Ascii.
From stdpp Require Import gmap strings list fin_maps pretty.

Close Scope Q_scope.
Local Open Scope string_scope.
Local Open Scope Z_scope.

(** ** Strings *)

Module Str.

Definition is_upper (c : ascii) : bool :=
  let n := N_of_ascii c in ((65 <=? n) && (n <=? 90))%N.

Definition lower_char (c : ascii) : ascii :=
  if is_upper c then ascii_of_N (N_of_ascii c + 32) else c.

(** [String.prototype.toLowerCase] on ASCII text. *)
Fixpoint toLowerCase (s : string) : string :=
  match s with
  | EmptyString => EmptyString
  | String c s' => String (lower_char c) (toLowerCase s')
  end.

(** White space and line terminators stripped by [trim]:
    TAB, LF, VT, FF, CR and SPACE. *)
Definition is_space (c : ascii) : bool :=
  let n := N_of_ascii c in (((9 <=? n) && (n <=? 13)) || (n =? 32))%N.

Fixpoint trimStart (s : string) : string :=
  match s with
  | EmptyString => EmptyString
  | String c s' => if is_space c then trimStart s' else s
  end.

Fixpoint trimEnd (s : string) : string :=
  match s with
  | EmptyString => EmptyString
  | String c s' =>
      match trimEnd s' with
      | EmptyString => if is_space c then EmptyString else String c EmptyString
      | t => String c t
      end
  end.

(** [String.prototype.trim]. *)
Definition trim (s : string) : string := trimEnd (trimStart s).

(** [split_fields sep s] is the pair of the first field of [s] and the
    remaining fields. *)
Fixpoint split_fields (sep : ascii) (s : string) : string * list string :=
  match s with
  | EmptyString => (EmptyString, [])
  | String c s' =>
      let '(f, fs) := split_fields sep s' in
      if Ascii.eqb c sep then (EmptyString, f :: fs) else (String c f, fs)
  end.

(** [s.split(sep)] for a one-character separator: never empty. *)
Definition split (sep : ascii) (s : string) : list string :=
  let '(f, fs) := split_fields sep s in f :: fs.

(** [s.includes(t)]. *)
Fixpoint includes (s t : string) : bool :=
  String.prefix t s ||
  match s with
  | EmptyString => false
  | String _ s' => includes s' t
  end.

Definition comma : ascii := ",".
Definition newline : ascii := "010".
Definition nl : string := String newline EmptyString.

End Str.

(** ** Rows *)

(** A cell: [null] or a string. *)
Abbreviation cell := (option string).

(** A row: its own properties, column name to cell. *)
Abbreviation Row := (gmap string cell).

(** [Object.values(row)]: the cells of the row. The list comes in the
    order of the map, which need not be the order in which the object
    lists its properties; it is used under the counting [forEach] of
    [calculateStats] and under [some] in [filterData], which do not depend
    on that order ([scan_values_order], [some_order]). *)
Definition Object_values (row : Row) : list cell := (map_to_list row).*2.

(** ** CSV parser: [parseCSV] *)

(** The cell stored for a field: [value === '' || value === 'null' ? null : value]
    on the trimmed field. *)
Definition cell_of (field : string) : cell :=
  let value := Str.trim field in
  if String.eqb value "" || String.eqb value "null" then None else Some value.

(** An object made by [{}] while it is filled: its own properties, and
    whether its prototype has been set to [null] (it starts as
    [Object.prototype]). *)
Record Obj := {
  own : Row;
  null_proto : bool
}.

(** [{}] *)
Definition fresh : Obj := {| own := ∅; null_proto := false |}.

(** [obj[key] = value] for a value that is [null] or a string.
    [Object.prototype] has one accessor property, [__proto__]: on an object
    that inherits it, an assignment to that key runs its setter and makes
    no own property; the setter sets the prototype to [null] for the value
    [null] and ignores a string. Once the prototype is [null] the key is an
    ordinary one. The other properties of [Object.prototype] are writable
    data properties, which an assignment shadows by an own property, as it
    makes or overwrites the own property of any other key. *)
Definition assign (obj : Obj) (key : string) (value : cell) : Obj :=
  if String.eqb key "__proto__" && negb (null_proto obj)
  then
    match value with
    | None => {| own := own obj; null_proto := true |}
    | Some _ => obj
    end
  else {| own := <[key := value]> (own obj); null_proto := null_proto obj |}.

(** [row[header] = ...] for one header and the field at its index. *)
Definition put_cell (row : Obj) (hv : string * string) : Obj :=
  assign row hv.1 (cell_of hv.2).

(** [headers.forEach((header, index) => ...)] on a fresh object: under the
    arity guard of the caller [values[index]] is defined for every header.
    The row that is pushed is held as its own properties. *)
Definition fill_row (headers values : list string) : Row :=
  own (foldl put_cell fresh (zip headers values)).

(** The [for] loop over [lines[1..]], [data] being the rows pushed so far. *)
Fixpoint parse_lines (headers : list string) (lines : list string)
    (data : list Row) : list Row :=
  match lines with
  | [] => data
  | line :: rest =>
      let values := Str.split Str.comma line in
      if Nat.eqb (length values) (length headers)
      then parse_lines headers rest (data ++ [fill_row headers values])
      else parse_lines headers rest data
  end.

Definition parse_headers (line : string) : list string :=
  map (λ h, Str.toLowerCase (Str.trim h)) (Str.split Str.comma line).

Definition parseCSV (text : string) : list Row :=
  match Str.split Str.newline (Str.trim text) with
  | [] => []
  | header_line :: rest => parse_lines (parse_headers header_line) rest []
  end.

(** ** Quality calculator: [calculateStats] *)

(** The string returned by [toFixed(1)]: a decimal numeral with exactly one
    fractional digit, held as its number of tenths ("50.0" is 500 tenths). *)
Record fixed1 := Fixed1 { tenths : Z }.

(** [x.toFixed(1)]: the nearest multiple of 1/10 to the magnitude of [x],
    the larger one when two are equally near, with the sign of [x]. *)
Definition toFixed1 (x : Q) : fixed1 :=
  if Qle_bool 0 x
  then Fixed1 (Qfloor (x * 10 + (1 # 2))%Q)
  else Fixed1 (- Qfloor (- x * 10 + (1 # 2))%Q).

(** What a conditional such as [rawTotal > 0 ? (...).toFixed(1) : 0]
    evaluates to: a number or a [toFixed] string. *)
Inductive num_or_fixed :=
  | Num (n : Q)
  | Fix (s : fixed1).

(** [parseFloat]: the number a numeral denotes; a number is first printed
    and then read back. *)
Definition parseFloat (v : num_or_fixed) : Q :=
  match v with
  | Num n => n
  | Fix s => (inject_Z (tenths s) / 10)%Q
  end.

(** The four counters of the scan over the raw rows. *)
Record counters := Counters {
  rawMissing : Z;
  rawNulls : Z;
  totalFields : Z;
  validFields : Z
}.

(** [value === null || value === ''] *)
Definition is_missing (v : cell) : bool :=
  match v with
  | None => true
  | Some s => String.eqb s ""
  end.

(** Body of the inner [forEach]; the boolean is the row-local [hasNull]. *)
Definition visit_value (acc : counters * bool) (v : cell) : counters * bool :=
  let '(c, hasNull) := acc in
  let c := Counters (rawMissing c) (rawNulls c) (totalFields c + 1) (validFields c) in
  if is_missing v then
    let c := Counters (rawMissing c) (rawNulls c + 1) (totalFields c) (validFields c) in
    if negb hasNull
    then (Counters (rawMissing c + 1) (rawNulls c) (totalFields c) (validFields c), true)
    else (c, hasNull)
  else (Counters (rawMissing c) (rawNulls c) (totalFields c) (validFields c + 1), hasNull).

(** Body of the outer [forEach]: [hasNull] starts at [false] for each row. *)
Definition visit_row (c : counters) (row : Row) : counters :=
  (foldl visit_value (c, false) (Object_values row)).1.

Definition scan_raw (raw : list Row) : counters :=
  foldl visit_row (Counters 0 0 0 0) raw.

(** One side ([raw] or [cleaned]) of the returned statistics. *)
Record SideStats := {
  total : Z;
  missing : Z;
  nulls : Z;
  completeness : Q;
  validity : Q;
  consistency : Q
}.

Record DataStats := {
  raw : SideStats;
  cleaned : SideStats;
  quality : num_or_fixed;
  removed : Z
}.

Definition calculateStats (raw cleaned : list Row) : DataStats :=
  let rawTotal := Z.of_nat (length raw) in
  let cleanedTotal := Z.of_nat (length cleaned) in
  let c := scan_raw raw in
  let quality :=
    if 0 <? rawTotal
    then Fix (toFixed1 (inject_Z cleanedTotal / inject_Z rawTotal * 100)%Q)
    else Num 0%Q in
  let completeness :=
    if 0 <? totalFields c
    then Fix (toFixed1 (inject_Z (validFields c) / inject_Z (totalFields c) * 100)%Q)
    else Num 0%Q in
  let validity :=
    if 0 <? rawTotal
    then Fix (toFixed1 (inject_Z (rawTotal - rawMissing c) / inject_Z rawTotal * 100)%Q)
    else Num 0%Q in
  let consistency :=
    if 0 <? rawTotal
    then Fix (toFixed1
                (inject_Z (rawTotal - (rawTotal - cleanedTotal)) / inject_Z rawTotal * 100)%Q)
    else Num 0%Q in
  {| raw := {| total := rawTotal;
               missing := rawMissing c;
               nulls := rawNulls c;
               completeness := parseFloat completeness;
               validity := parseFloat validity;
               consistency := parseFloat consistency |};
     cleaned := {| total := cleanedTotal;
                   missing := 0;
                   nulls := 0;
                   completeness := 100%Q;
                   validity := 100%Q;
                   consistency := 100%Q |};
     quality := quality;
     removed := rawTotal - cleanedTotal |}.

(** ** Application state *)

Record Dataset := {
  name : string;
  icon : string;
  rawPath : string;
  cleanedPath : string;
  description : string
}.

Definition DATASETS : gmap string Dataset :=
  {[ "field" :=
       {| name := "Field Reports"; icon := "fa-flag";
          rawPath := "data/raw/field.csv";
          cleanedPath := "data/cleaned/cleaned_field.csv";
          description := "Field failure and incident reports" |};
     "manufacturing" :=
       {| name := "Manufacturing Data"; icon := "fa-industry";
          rawPath := "data/raw/manufacturing.csv";
          cleanedPath := "data/cleaned/cleaned_manufacturing.csv";
          description := "Manufacturing process and quality data" |};
     "sales" :=
       {| name := "Sales Data"; icon := "fa-shopping-cart";
          rawPath := "data/raw/sales.csv";
          cleanedPath := "data/cleaned/cleaned_sales.csv";
          description := "Sales transactions and customer data" |};
     "testing" :=
       {| name := "Testing Data"; icon := "fa-flask";
          rawPath := "data/raw/testing.csv";
          cleanedPath := "data/cleaned/cleaned_testing.csv";
          description := "Product testing and quality assurance data" |} ]}.

(** The two table views; in the source the [type] strings 'raw' and 'cleaned'. *)
Inductive view := RawView | CleanedView.

#[global] Instance view_eq_dec : EqDecision view.
Proof. solve_decision. Defined.

Record ViewState := {
  currentPage : Z;
  itemsPerPage : Z;
  filteredData : list Row
}.

Record PaginationState := {
  pg_raw : ViewState;
  pg_cleaned : ViewState
}.

(** The module-level variables of the data management system. *)
Record AppState := {
  currentDataset : string;
  rawData : list Row;
  cleanedData : list Row;
  dataStats : DataStats;
  paginationState : PaginationState
}.

(** [paginationState[type]] *)
Definition view_of (p : PaginationState) (v : view) : ViewState :=
  match v with
  | RawView => pg_raw p
  | CleanedView => pg_cleaned p
  end.

Definition set_view (p : PaginationState) (v : view) (s : ViewState) : PaginationState :=
  match v with
  | RawView => {| pg_raw := s; pg_cleaned := pg_cleaned p |}
  | CleanedView => {| pg_raw := pg_raw p; pg_cleaned := s |}
  end.

Definition set_currentDataset (x : string) (st : AppState) : AppState :=
  {| currentDataset := x; rawData := rawData st; cleanedData := cleanedData st;
     dataStats := dataStats st; paginationState := paginationState st |}.

Definition set_rawData (x : list Row) (st : AppState) : AppState :=
  {| currentDataset := currentDataset st; rawData := x; cleanedData := cleanedData st;
     dataStats := dataStats st; paginationState := paginationState st |}.

Definition set_cleanedData (x : list Row) (st : AppState) : AppState :=
  {| currentDataset := currentDataset st; rawData := rawData st; cleanedData := x;
     dataStats := dataStats st; paginationState := paginationState st |}.

Definition set_dataStats (x : DataStats) (st : AppState) : AppState :=
  {| currentDataset := currentDataset st; rawData := rawData st;
     cleanedData := cleanedData st; dataStats := x;
     paginationState := paginationState st |}.

Definition set_paginationState (x : PaginationState) (st : AppState) : AppState :=
  {| currentDataset := currentDataset st; rawData := rawData st;
     cleanedData := cleanedData st; dataStats := dataStats st;
     paginationState := x |}.

(** [paginationState[type].filteredData = rows] *)
Definition set_filteredData (v : view) (rows : list Row) (st : AppState) : AppState :=
  let s := view_of (paginationState st) v in
  set_paginationState
    (set_view (paginationState st) v
       {| currentPage := currentPage s; itemsPerPage := itemsPerPage s;
          filteredData := rows |}) st.

(** [paginationState[type].currentPage = page] *)
Definition set_page (v : view) (page : Z) (st : AppState) : AppState :=
  let s := view_of (paginationState st) v in
  set_paginationState
    (set_view (paginationState st) v
       {| currentPage := page; itemsPerPage := itemsPerPage s;
          filteredData := filteredData s |}) st.

(** [paginationState[type].itemsPerPage = n] *)
Definition set_itemsPerPage (v : view) (n : Z) (st : AppState) : AppState :=
  let s := view_of (paginationState st) v in
  set_paginationState
    (set_view (paginationState st) v
       {| currentPage := currentPage s; itemsPerPage := n;
          filteredData := filteredData s |}) st.

(** The pagination state the script starts with: [rawData] and
    [cleanedData] are still empty when it is built. *)
Definition initial_view : ViewState :=
  {| currentPage := 1; itemsPerPage := 50; filteredData := [] |}.

Definition initial_pagination : PaginationState :=
  {| pg_raw := initial_view; pg_cleaned := initial_view |}.

(** ** Computations that may throw *)

(** A computation over the module variables that returns or throws
    ([None]); the assignments made before a throw stay made. *)
Definition Eff (A : Type) : Type := AppState → AppState * option A.

#[global] Instance eff_ret : MRet Eff := λ A a st, (st, Some a).

#[global] Instance eff_bind : MBind Eff := λ A B k m st,
  match m st with
  | (st', Some a) => k a st'
  | (st', None) => (st', None)
  end.

Definition throw {A : Type} : Eff A := λ st, (st, None).

Definition modify (f : AppState → AppState) : Eff unit := λ st, (f st, Some tt).

(** What the network answers for a path: the text of the file, or nothing
    when [fetch] or [response.text()] rejects. *)
Definition Network : Type := string → option string.

(** [await (await fetch(path)).text()] *)
Definition fetch_text (net : Network) (path : string) : Eff string :=
  match net path with
  | Some text => mret text
  | None => throw
  end.

(** The names of the properties of [Object.prototype], which an object
    written as a literal inherits. *)
Definition Object_prototype_names : list string :=
  [ "constructor"; "hasOwnProperty"; "isPrototypeOf"; "propertyIsEnumerable";
    "toLocaleString"; "toString"; "valueOf"; "__proto__";
    "__defineGetter__"; "__defineSetter__"; "__lookupGetter__"; "__lookupSetter__" ].

(** [DATASETS[datasetName]] as the load goes on to read it: an entry of the
    catalog ([Some dataset]); for a name that [DATASETS] only inherits, a
    function or object that has neither path property ([None]); for any
    other name [undefined], and reading a property of it is a [TypeError]. *)
Definition dataset_of (datasetName : string) : Eff (option Dataset) :=
  match DATASETS !! datasetName with
  | Some dataset => mret (Some dataset)
  | None =>
      if bool_decide (datasetName ∈ Object_prototype_names)
      then mret None
      else throw
  end.

(** [dataset.rawPath] or [dataset.cleanedPath] as [fetch] takes it: a
    missing property is [undefined], which [fetch] reads as the text
    "undefined". *)
Definition path_of (select : Dataset → string) (dataset : option Dataset) : string :=
  from_option select "undefined" dataset.

(** ** Dataset loader: [loadDataset] *)

(** The [try] block, run on its own: no other listener runs while it
    awaits, and the network answers a path the same way throughout. The
    calls that only touch the page ([showLoadingState], [updateMetrics],
    [renderTable], ...) leave the module variables alone and are not shown;
    neither is an error raised by one of them. *)
Definition loadDataset_try (net : Network) (datasetName : string) : Eff unit :=
  modify (set_currentDataset datasetName) ;;
  dataset ← dataset_of datasetName ;
  rawText ← fetch_text net (path_of rawPath dataset) ;
  modify (set_rawData (parseCSV rawText)) ;;
  cleanedText ← fetch_text net (path_of cleanedPath dataset) ;
  modify (set_cleanedData (parseCSV cleanedText)) ;;
  modify (λ st, set_dataStats (calculateStats (rawData st) (cleanedData st)) st) ;;
  modify (λ st, set_filteredData RawView (rawData st) st) ;;
  modify (set_page RawView 1) ;;
  modify (λ st, set_filteredData CleanedView (cleanedData st) st) ;;
  modify (set_page CleanedView 1).

Inductive LoadOutcome := Loaded | LoadFailed.

(** [try { ... } catch (error) { console.error(...); showErrorState(...) }]:
    the handler reports and changes no module variable. *)
Definition loadDataset (net : Network) (datasetName : string) (st : AppState)
    : AppState * LoadOutcome :=
  match loadDataset_try net datasetName st with
  | (st', Some _) => (st', Loaded)
  | (st', None) => (st', LoadFailed)
  end.

(** ** Search: [filterData] and the 'input' listeners *)

(** [type === 'raw' ? rawData : cleanedData] *)
Definition sourceData (v : view) (st : AppState) : list Row :=
  match v with
  | RawView => rawData st
  | CleanedView => cleanedData st
  end.

(** The callback of [some]. *)
Definition value_matches (searchTerm : string) (value : cell) : bool :=
  match value with
  | None => false
  | Some s => Str.includes (Str.toLowerCase s) searchTerm
  end.

(** The callback of [filter]. *)
Definition row_matches (searchTerm : string) (item : Row) : bool :=
  existsb (value_matches searchTerm) (Object_values item).

Definition filterData (v : view) (searchTerm : string) (st : AppState) : AppState :=
  let source := sourceData v st in
  let st :=
    if String.eqb searchTerm ""
    then set_filteredData v source st
    else set_filteredData v (List.filter (row_matches searchTerm) source) st in
  set_page v 1 st.

(** The 'input' listener of a search box:
    [filterData(type, e.target.value.toLowerCase())]. *)
Definition search (v : view) (term : string) (st : AppState) : AppState :=
  filterData v (Str.toLowerCase term) st.

(** ** Page size and page navigation listeners *)

(** The 'change' listener of a limit selector, [n] being
    [parseInt(e.target.value)]. *)
Definition changeLimit (v : view) (n : Z) (st : AppState) : AppState :=
  set_page v 1 (set_itemsPerPage v n st).

(** [Math.ceil(state.filteredData.length / state.itemsPerPage)] *)
Definition maxPage (s : ViewState) : Z :=
  Qceiling (inject_Z (Z.of_nat (length (filteredData s))) / inject_Z (itemsPerPage s))%Q.

(** The 'click' listener of a previous-page button. *)
Definition prevPage (v : view) (st : AppState) : AppState :=
  let s := view_of (paginationState st) v in
  if 1 <? currentPage s then set_page v (currentPage s - 1) st else st.

(** The 'click' listener of a next-page button. *)
Definition nextPage (v : view) (st : AppState) : AppState :=
  let s := view_of (paginationState st) v in
  if currentPage s <? maxPage s then set_page v (currentPage s + 1) st else st.

(** ** The transitions of the pagination / filter state machine *)

Inductive action :=
  | Load (datasetName : string)
  | Search (v : view) (term : string)
  | ChangePageSize (v : view) (n : Z)
  | PageForward (v : view)
  | PageBack (v : view).

Definition step (net : Network) (st : AppState) (a : action) : AppState :=
  match a with
  | Load datasetName => (loadDataset net datasetName st).1
  | Search v term => search v term st
  | ChangePageSize v n => changeLimit v n st
  | PageForward v => nextPage v st
  | PageBack v => prevPage v st
  end.

(** ** Specification-level notions *)

(** The lines of a CSV text, its header names and its data lines. *)
Definition csv_lines (text : string) : list string :=
  Str.split Str.newline (Str.trim text).

Definition csv_headers (text : string) : list string :=
  parse_headers (hd "" (csv_lines text)).

Definition csv_data_lines (text : string) : list string := tl (csv_lines text).

(** A data line has as many comma-separated fields as the header. *)
Definition arity_ok (headers : list string) (line : string) : bool :=
  Nat.eqb (length (Str.split Str.comma line)) (length headers).

(** The row of a kept data line. *)
Definition row_of_line (headers : list string) (line : string) : Row :=
  fill_row headers (Str.split Str.comma line).



(** Some field of [row] is null (or the empty string). *)
Definition has_missing (row : Row) : Prop :=
  ∃ k v, row !! k = Some v ∧ is_missing v = true.

Definition row_has_missing (row : Row) : bool :=
  existsb is_missing (Object_values row).

(** Number of null cells of a row. *)
Definition missing_cells (row : Row) : nat :=
  length (List.filter is_missing (Object_values row)).

(** Number of non-null cells of a row. *)
Definition valid_cells (row : Row) : nat :=
  length (List.filter (λ v, negb (is_missing v)) (Object_values row)).

Fixpoint sum_over (f : Row → nat) (rows : list Row) : nat :=
  match rows with
  | [] => 0
  | row :: rest => f row + sum_over f rest
  end%nat.

(** [r] is [x] rounded to one decimal digit: a multiple of 1/10 at
    distance at most 1/20 from [x]. *)
Definition rounded1 (x r : Q) : Prop :=
  ∃ t : Z, (r == inject_Z t / 10)%Q ∧ (Qabs (r - x) <= 1 # 20)%Q.

(** The numeric value of what [quality] holds. *)
Definition numeric (v : num_or_fixed) : Q := parseFloat v.

(** The page-number invariant of one view. *)
Definition page_inv (s : ViewState) : Prop :=
  1 ≤ currentPage s ≤ Z.max 1 (maxPage s).

Definition pagination_ok (p : PaginationState) : Prop :=
  ∀ v, 0 < itemsPerPage (view_of p v) ∧ page_inv (view_of p v).

(** The page sizes a limit selector can deliver are positive. *)
Definition action_ok (a : action) : Prop :=
  match a with
  | ChangePageSize _ n => 0 < n
  | _ => True
  end.

(** States reached from a state with the initial pagination state. *)
Inductive reachable (net : Network) : AppState → Prop :=
  | reach_init st :
      paginationState st = initial_pagination → reachable net st
  | reach_step st a :
      reachable net st → action_ok a → reachable net (step net st a).

(** The two paths a load of [datasetName] fetches, when it gets to fetch. *)
Definition paths_of (datasetName : string) : option (string * string) :=
  match DATASETS !! datasetName with
  | Some dataset => Some (rawPath dataset, cleanedPath dataset)
  | None =>
      if bool_decide (datasetName ∈ Object_prototype_names)
      then Some ("undefined", "undefined")
      else None
  end.

(** ** Notions for the further properties *)

(** A text made of white space only. *)
Fixpoint all_space (s : string) : bool :=
  match s with
  | EmptyString => true
  | String c s' => Str.is_space c && all_space s'
  end.

(** [s] does not begin with white space. *)
Definition starts_clean (s : string) : Prop :=
  match s with
  | EmptyString => True
  | String c _ => Str.is_space c = false
  end.

(** Two line sequences that differ by white space at the end of lines, as
    an LF file and its CR LF form do. *)
Definition same_up_to_line_ends (lines lines' : list string) : Prop :=
  Forall2 (λ l l', ∃ w, all_space w = true ∧ l' = l +:+ w) lines lines'.

(** [g] applied to the last element. *)
Fixpoint map_last {A} (g : A → A) (l : list A) : list A :=
  match l with
  | [] => []
  | [x] => [g x]
  | x :: rest => x :: map_last g rest
  end.

Definition carriage_return : ascii := "013".

(** The CR LF form of a text: a carriage return before every line feed. *)
Fixpoint to_crlf (s : string) : string :=
  match s with
  | EmptyString => EmptyString
  | String c s' =>
      if Ascii.eqb c Str.newline
      then String carriage_return (String Str.newline (to_crlf s'))
      else String c (to_crlf s')
  end.

(** The view an action of the user works on; a load works on both. *)
Definition action_view (a : action) : option view :=
  match a with
  | Load _ => None
  | Search v _ | ChangePageSize v _ | PageForward v | PageBack v => Some v
  end.

(** Each view shows rows of its own source sequence, in source order. *)
Definition views_in_source (st : AppState) : Prop :=
  ∀ v, filteredData (view_of (paginationState st) v) `sublist_of` sourceData v st.

(** ** Table rendering: [renderTable] and [updatePaginationInfo] *)

(** [data.slice(start, end)], with the relative indices of
    [Array.prototype.slice]. *)
Definition Array_slice {A : Type} (data : list A) (start final : Z) : list A :=
  let len := Z.of_nat (length data) in
  let k := if start <? 0 then Z.max (len + start) 0 else Z.min start len in
  let e := if final <? 0 then Z.max (len + final) 0 else Z.min final len in
  take (Z.to_nat (e - k)) (drop (Z.to_nat k) data).

(** The content of a [tbody]: the single "No data available" row, or one
    [tr] per item appended, in order. A [tr] is held as the item it is
    built from; the markup of its cells (the [Object.values] of the item,
    joined into [innerHTML]) is not modelled. *)
Inductive tbody :=
  | NoDataRow
  | DataRows (items : list Row).

(** What the page shows for one view: the table body, the page-info text
    and the [disabled] flags of the two page buttons. *)
Record ViewUI := {
  body : tbody;
  page_info : string;
  prev_disabled : bool;
  next_disabled : bool
}.

Record PageUI := {
  ui_raw : ViewUI;
  ui_cleaned : ViewUI
}.

Definition ui_of (ui : PageUI) (v : view) : ViewUI :=
  match v with
  | RawView => ui_raw ui
  | CleanedView => ui_cleaned ui
  end.

Definition set_ui (ui : PageUI) (v : view) (x : ViewUI) : PageUI :=
  match v with
  | RawView => {| ui_raw := x; ui_cleaned := ui_cleaned ui |}
  | CleanedView => {| ui_raw := ui_raw ui; ui_cleaned := x |}
  end.

(** [`Page ${state.currentPage} of ${maxPage}`] *)
Definition page_text (current max : Z) : string :=
  "Page " +:+ pretty current +:+ " of " +:+ pretty max.

Definition updatePaginationInfo (v : view) (st : AppState) (ui : PageUI) : PageUI :=
  let state := view_of (paginationState st) v in
  let maxPage := maxPage state in
  set_ui ui v
    {| body := body (ui_of ui v);
       page_info := page_text (currentPage state) maxPage;
       prev_disabled := currentPage state =? 1;
       next_disabled := currentPage state =? maxPage |}.

(** [data.slice(startIndex, endIndex)] of [renderTable]. *)
Definition pageData (state : ViewState) (page : Z) : list Row :=
  let startIndex := (page - 1) * itemsPerPage state in
  let endIndex := startIndex + itemsPerPage state in
  Array_slice (filteredData state) startIndex endIndex.

Definition set_body (v : view) (b : tbody) (ui : PageUI) : PageUI :=
  set_ui ui v
    {| body := b;
       page_info := page_info (ui_of ui v);
       prev_disabled := prev_disabled (ui_of ui v);
       next_disabled := next_disabled (ui_of ui v) |}.

Definition renderTable (v : view) (page : Z) (st : AppState) (ui : PageUI) : PageUI :=
  let state := view_of (paginationState st) v in
  let data := filteredData state in
  if (length data =? 0)%nat
  then set_body v NoDataRow ui
  else
    updatePaginationInfo v st
      (set_body v (DataRows (pageData state page)) ui).

(** *** The listeners with what they draw *)

(** [initializeDataTables]: both tables are drawn once at start-up. *)
Definition initializeDataTables (st : AppState) (ui : PageUI) : PageUI :=
  renderTable CleanedView (currentPage (view_of (paginationState st) CleanedView)) st
    (renderTable RawView (currentPage (view_of (paginationState st) RawView)) st ui).

(** [filterData] up to its last line, [renderTable(type, 1)]. *)
Definition on_search (v : view) (term : string) (w : AppState * PageUI)
    : AppState * PageUI :=
  let st' := search v term w.1 in (st', renderTable v 1 st' w.2).

Definition on_limit (v : view) (n : Z) (w : AppState * PageUI) : AppState * PageUI :=
  let st' := changeLimit v n w.1 in (st', renderTable v 1 st' w.2).

Definition on_prev (v : view) (w : AppState * PageUI) : AppState * PageUI :=
  let s := view_of (paginationState w.1) v in
  if 1 <? currentPage s
  then
    let st' := set_page v (currentPage s - 1) w.1 in
    (st', renderTable v (currentPage (view_of (paginationState st') v)) st' w.2)
  else w.

Definition on_next (v : view) (w : AppState * PageUI) : AppState * PageUI :=
  let s := view_of (paginationState w.1) v in
  if currentPage s <? maxPage s
  then
    let st' := set_page v (currentPage s + 1) w.1 in
    (st', renderTable v (currentPage (view_of (paginationState st') v)) st' w.2)
  else w.

(** [loadDataset] with the two [renderTable] calls that end its [try]
    block; a failed load draws nothing. *)
Definition on_load (net : Network) (datasetName : string) (w : AppState * PageUI)
    : AppState * PageUI :=
  match loadDataset net datasetName w.1 with
  | (st', Loaded) => (st', renderTable CleanedView 1 st' (renderTable RawView 1 st' w.2))
  | (st', LoadFailed) => (st', w.2)
  end.

Definition step_ui (net : Network) (w : AppState * PageUI) (a : action)
    : AppState * PageUI :=
  match a with
  | Load datasetName => on_load net datasetName w
  | Search v term => on_search v term w
  | ChangePageSize v n => on_limit v n w
  | PageForward v => on_next v w
  | PageBack v => on_prev v w
  end.

(** What a table body must be to show the current page of a view. *)
Definition body_of (s : ViewState) : tbody :=
  match filteredData s with
  | [] => NoDataRow
  | _ => DataRows (pageData s (currentPage s))
  end.

(** What is drawn for a view shows its state: the table shows the current
    page, and over a non-empty table the page-info text and the button
    flags are those of the current page. *)
Definition shows_view (s : ViewState) (x : ViewUI) : Prop :=
  body x = body_of s
  ∧ (filteredData s ≠ [] →
     page_info x = page_text (currentPage s) (maxPage s)
     ∧ prev_disabled x = (currentPage s =? 1)
     ∧ next_disabled x = (currentPage s =? maxPage s)).

Definition shows (st : AppState) (ui : PageUI) : Prop :=
  ∀ v, shows_view (view_of (paginationState st) v) (ui_of ui v).

(** States and pages reached from the start-up drawing. *)
Inductive reachable_ui (net : Network) : AppState * PageUI → Prop :=
  | reach_ui_init st ui :
      paginationState st = initial_pagination →
      reachable_ui net (st, initializeDataTables st ui)
  | reach_ui_step w a :
      reachable_ui net w → action_ok a → reachable_ui net (step_ui net w a).

(** ** Column analytics: [generateAnalytics] *)


(** What [row[key]] reads: [undefined] ([None]) for a column the row does
    not have, else its cell. *)
Abbreviation read := (option cell).










(** ** Flowchart viewer: zoom and pan ([initializeFlowchartViewer]) *)

(** The variables of the viewer's closure, and whether the image carries
    the class 'loaded'. The scale only takes values that are multiples of
    0.25, which binary64 holds exactly; pointer coordinates are whole
    pixels. *)
Record Viewer := {
  scale : Q;
  translateX : Z;
  translateY : Z;
  isDragging : bool;
  startX : Z;
  startY : Z;
  touchStartX : Z;
  touchStartY : Z;
  isFullscreen : bool;
  loaded : bool
}.

Definition MIN_SCALE : Q := 1 # 2.
Definition MAX_SCALE : Q := 5.
Definition SCALE_STEP : Q := 1 # 4.

Definition Math_min (a b : Q) : Q := if Qle_bool a b then a else b.
Definition Math_max (a b : Q) : Q := if Qle_bool a b then b else a.

(** [a < b] on numbers. *)
Definition Qlt_bool (a b : Q) : bool := negb (Qle_bool b a).

Definition initial_viewer : Viewer :=
  {| scale := 1; translateX := 0; translateY := 0; isDragging := false;
     startX := 0; startY := 0; touchStartX := 0; touchStartY := 0;
     isFullscreen := false; loaded := false |}.

Definition set_scale (x : Q) (s : Viewer) : Viewer :=
  {| scale := x; translateX := translateX s; translateY := translateY s;
     isDragging := isDragging s; startX := startX s; startY := startY s;
     touchStartX := touchStartX s; touchStartY := touchStartY s;
     isFullscreen := isFullscreen s; loaded := loaded s |}.

Definition set_translate (x y : Z) (s : Viewer) : Viewer :=
  {| scale := scale s; translateX := x; translateY := y;
     isDragging := isDragging s; startX := startX s; startY := startY s;
     touchStartX := touchStartX s; touchStartY := touchStartY s;
     isFullscreen := isFullscreen s; loaded := loaded s |}.

Definition set_dragging (b : bool) (s : Viewer) : Viewer :=
  {| scale := scale s; translateX := translateX s; translateY := translateY s;
     isDragging := b; startX := startX s; startY := startY s;
     touchStartX := touchStartX s; touchStartY := touchStartY s;
     isFullscreen := isFullscreen s; loaded := loaded s |}.

Definition set_start (x y : Z) (s : Viewer) : Viewer :=
  {| scale := scale s; translateX := translateX s; translateY := translateY s;
     isDragging := isDragging s; startX := x; startY := y;
     touchStartX := touchStartX s; touchStartY := touchStartY s;
     isFullscreen := isFullscreen s; loaded := loaded s |}.

Definition set_touchStart (x y : Z) (s : Viewer) : Viewer :=
  {| scale := scale s; translateX := translateX s; translateY := translateY s;
     isDragging := isDragging s; startX := startX s; startY := startY s;
     touchStartX := x; touchStartY := y;
     isFullscreen := isFullscreen s; loaded := loaded s |}.

Definition set_fullscreen (b : bool) (s : Viewer) : Viewer :=
  {| scale := scale s; translateX := translateX s; translateY := translateY s;
     isDragging := isDragging s; startX := startX s; startY := startY s;
     touchStartX := touchStartX s; touchStartY := touchStartY s;
     isFullscreen := b; loaded := loaded s |}.

Definition set_loaded (b : bool) (s : Viewer) : Viewer :=
  {| scale := scale s; translateX := translateX s; translateY := translateY s;
     isDragging := isDragging s; startX := startX s; startY := startY s;
     touchStartX := touchStartX s; touchStartY := touchStartY s;
     isFullscreen := isFullscreen s; loaded := b |}.

Definition resetZoom (s : Viewer) : Viewer :=
  set_translate 0 0 (set_scale 1 s).

Definition zoomIn (s : Viewer) : Viewer :=
  if Qlt_bool (scale s) MAX_SCALE
  then set_scale (Math_min (scale s + SCALE_STEP) MAX_SCALE) s
  else s.

Definition zoomOut (s : Viewer) : Viewer :=
  if Qlt_bool MIN_SCALE (scale s)
  then set_scale (Math_max (scale s - SCALE_STEP) MIN_SCALE) s
  else s.

Definition toggleFullscreen (s : Viewer) : Viewer :=
  set_fullscreen (negb (isFullscreen s)) s.

(** The 'wheel' listener, [deltaY] being [e.deltaY]. *)
Definition on_wheel (deltaY : Z) (s : Viewer) : Viewer :=
  if loaded s then
    let delta := if 0 <? deltaY then (- SCALE_STEP)%Q else SCALE_STEP in
    let newScale := Math_max MIN_SCALE (Math_min MAX_SCALE (scale s + delta)) in
    if negb (Qeq_bool newScale (scale s)) then set_scale newScale s else s
  else s.

(** The 'mousedown' listener at pointer position [(x, y)]. *)
Definition on_mousedown (x y : Z) (s : Viewer) : Viewer :=
  if loaded s && Qlt_bool 1 (scale s)
  then set_start (x - translateX s) (y - translateY s) (set_dragging true s)
  else s.

Definition on_mousemove (x y : Z) (s : Viewer) : Viewer :=
  if isDragging s then set_translate (x - startX s) (y - startY s) s else s.

Definition on_mouseup (s : Viewer) : Viewer :=
  if isDragging s then set_dragging false s else s.

Definition on_touchstart (x y : Z) (s : Viewer) : Viewer :=
  if loaded s && Qlt_bool 1 (scale s)
  then set_touchStart (x - translateX s) (y - translateY s) (set_dragging true s)
  else s.

Definition on_touchmove (x y : Z) (s : Viewer) : Viewer :=
  if isDragging s
  then set_translate (x - touchStartX s) (y - touchStartY s) s
  else s.

Definition on_touchend (s : Viewer) : Viewer := set_dragging false s.

(** The 'keydown' listener. *)
Definition on_keydown (key : string) (s : Viewer) : Viewer :=
  if String.eqb key "Escape" && isFullscreen s then toggleFullscreen s else s.

(** The zoom level shown: [Math.round(scale * 100)]. *)
Definition zoom_percent (s : Viewer) : Z := Qfloor (scale s * 100 + (1 # 2))%Q.

Inductive viewer_event :=
  | ZoomIn | ZoomOut | ZoomReset | ToggleFullscreen
  | Wheel (deltaY : Z)
  | MouseDown (x y : Z) | MouseMove (x y : Z) | MouseUp
  | TouchStart (x y : Z) | TouchMove (x y : Z) | TouchEnd
  | KeyDown (key : string)
  | ImageLoad | ImageError.

Definition viewer_step (s : Viewer) (e : viewer_event) : Viewer :=
  match e with
  | ZoomIn => zoomIn s
  | ZoomOut => zoomOut s
  | ZoomReset => resetZoom s
  | ToggleFullscreen => toggleFullscreen s
  | Wheel deltaY => on_wheel deltaY s
  | MouseDown x y => on_mousedown x y s
  | MouseMove x y => on_mousemove x y s
  | MouseUp => on_mouseup s
  | TouchStart x y => on_touchstart x y s
  | TouchMove x y => on_touchmove x y s
  | TouchEnd => on_touchend s
  | KeyDown key => on_keydown key s
  | ImageLoad => set_loaded true s
  | ImageError => set_loaded false s
  end.

Inductive viewer_reachable : Viewer → Prop :=
  | viewer_init : viewer_reachable initial_viewer
  | viewer_next s e : viewer_reachable s → viewer_reachable (viewer_step s e).

(** The scale is within the zoom range and on the grid of quarter steps. *)
Definition scale_ok (s : Viewer) : Prop :=
  (MIN_SCALE <= scale s <= MAX_SCALE)%Q ∧ ∃ k : Z, (scale s == inject_Z k / 4)%Q.

(** ** Quality indicators: [updateQualityIndicators] *)

(** An element of the page as far as the indicators use it: the percent
    of [style.width], the percent written as text, and the class list. *)
Record Element := {
  style_width : Q;
  text_percent : Q;
  classList : gset string
}.

(** [document.getElementById]: the elements by id. *)
Abbreviation Document := (gmap string Element).

Inductive metric := Completeness | Validity | Consistency.

Definition metric_name (m : metric) : string :=
  match m with
  | Completeness => "completeness"
  | Validity => "validity"
  | Consistency => "consistency"
  end.

Definition metric_value (m : metric) (data : SideStats) : Q :=
  match m with
  | Completeness => completeness data
  | Validity => validity data
  | Consistency => consistency data
  end.

Definition type_name (v : view) : string :=
  match v with
  | RawView => "raw"
  | CleanedView => "cleaned"
  end.

(** [stats[type]] *)
Definition side_of (v : view) (stats : DataStats) : SideStats :=
  match v with
  | RawView => raw stats
  | CleanedView => cleaned stats
  end.

Definition bar_id (v : view) (m : metric) : string :=
  type_name v +:+ "-" +:+ metric_name m +:+ "-bar".

Definition value_id (v : view) (m : metric) : string :=
  type_name v +:+ "-" +:+ metric_name m.

(** The colour coding: one class added, the other two removed. *)
Definition set_status (value : Q) (classes : gset string) : gset string :=
  if Qle_bool 95 value
  then ({[ "success" ]} ∪ classes) ∖ {[ "warning"; "error" ]}
  else if Qle_bool 80 value
  then ({[ "warning" ]} ∪ classes) ∖ {[ "success"; "error" ]}
  else ({[ "error" ]} ∪ classes) ∖ {[ "success"; "warning" ]}.

(** One of the three blocks of [updateQualityIndicators]: nothing happens
    unless both the bar and the value element exist. *)
Definition update_indicator (v : view) (m : metric) (data : SideStats)
    (doc : Document) : Document :=
  match doc !! bar_id v m, doc !! value_id v m with
  | Some bar, Some val =>
      let x := metric_value m data in
      <[bar_id v m :=
          {| style_width := x; text_percent := text_percent bar;
             classList := set_status x (classList bar) |}]>
        (<[value_id v m :=
             {| style_width := style_width val; text_percent := x;
                classList := classList val |}]> doc)
  | _, _ => doc
  end.

Definition updateQualityIndicators (v : view) (stats : DataStats)
    (doc : Document) : Document :=
  let data := side_of v stats in
  update_indicator v Consistency data
    (update_indicator v Validity data
       (update_indicator v Completeness data doc)).

Definition status_classes : gset string := {[ "success"; "warning"; "error" ]}.

(** ** Strings: basic facts *)


Lemma append_cons (c : ascii) (s t : string) :
  String c s +:+ t = String c (s +:+ t).
Proof. reflexivity. Qed.



Lemma split_cons (sep : ascii) (s : string) :
  ∃ f fs, Str.split sep s = f :: fs.
Proof. unfold Str.split. destruct (Str.split_fields sep s) as [f fs]. eauto. Qed.

Lemma csv_lines_split (text : string) :
  csv_lines text = hd "" (csv_lines text) :: csv_data_lines text.
Proof.
  unfold csv_data_lines, csv_lines.
  destruct (split_cons Str.newline (Str.trim text)) as (f & fs & ->). done.
Qed.

(** ** The parser loop as a map over the kept lines *)

Lemma parse_lines_spec (headers lines : list string) (data : list Row) :
  parse_lines headers lines data
  = (data ++ (row_of_line headers <$> List.filter (arity_ok headers) lines))%list.
Proof.
  revert data. induction lines as [|line rest IH]; intros data; simpl.
  - by rewrite app_nil_r.
  - unfold arity_ok at 1. destruct (Nat.eqb _ _); rewrite IH; [|done].
    by rewrite <- app_assoc.
Qed.

Lemma parseCSV_unfold (text : string) :
  parseCSV text
  = row_of_line (csv_headers text)
      <$> List.filter (arity_ok (csv_headers text)) (csv_data_lines text).
Proof.
  unfold parseCSV, csv_headers. fold (csv_lines text).
  rewrite (csv_lines_split text) at 1. simpl. by rewrite parse_lines_spec.
Qed.

(** ** Filling a row: the last assignment to a column wins *)

Section fill.
Implicit Types (l : list (string * string)) (o : Obj).

Lemma assign_lookup_ne o key value k :
  k ≠ key → own (assign o key value) !! k = own o !! k.
Proof.
  intros Hne. unfold assign.
  destruct (String.eqb key "__proto__" && negb (null_proto o)).
  - by destruct value.
  - cbn [own]. by rewrite lookup_insert_ne.
Qed.

Lemma assign_lookup_eq o key value :
  key ≠ "__proto__" → own (assign o key value) !! key = Some value.
Proof.
  intros Hne. unfold assign.
  destruct (String.eqb_spec key "__proto__") as [->|_]; [done|].
  cbn [andb own]. by rewrite lookup_insert_eq.
Qed.

(** An assignment makes at most the property it names, holding the
    assigned value. *)
Lemma assign_lookup_Some o key value k c :
  own (assign o key value) !! k = Some c →
  own o !! k = Some c ∨ (k = key ∧ c = value).
Proof.
  unfold assign. destruct (String.eqb key "__proto__" && negb (null_proto o)).
  - destruct value; cbn [own]; auto.
  - cbn [own]. destruct (decide (key = k)) as [->|Hne].
    + rewrite lookup_insert_eq. intros [= <-]. by right.
    + rewrite lookup_insert_ne by done. by left.
Qed.

Lemma foldl_put_absent l o k :
  k ∉ l.*1 → own (foldl put_cell o l) !! k = own o !! k.
Proof.
  revert o. induction l as [|[h f] l IH]; intros o Hk; [done|].
  simpl in *. apply not_elem_of_cons in Hk as [Hne Hk].
  rewrite IH by done. unfold put_cell. simpl. by apply assign_lookup_ne.
Qed.


Lemma foldl_put_keys l o k :
  is_Some (own (foldl put_cell o l) !! k) → is_Some (own o !! k) ∨ k ∈ l.*1.
Proof.
  revert o. induction l as [|[h f] l IH]; intros o; simpl; [auto|].
  intros H. apply IH in H as [[c H]|H]; [|right; by right].
  unfold put_cell in H. simpl in H.
  apply assign_lookup_Some in H as [H|[-> _]]; [by left; eexists|].
  right. by left.
Qed.

Lemma foldl_put_dom l o k :
  k ≠ "__proto__" →
  is_Some (own (foldl put_cell o l) !! k) ↔ is_Some (own o !! k) ∨ k ∈ l.*1.
Proof.
  intros Hk. split; [apply foldl_put_keys|].
  revert o. induction l as [|[h f] l IH]; intros o; simpl.
  - intros [?|Hin]; [done | by apply elem_of_nil in Hin].
  - intros H. apply IH. unfold put_cell. simpl.
    destruct (decide (k = h)) as [->|Hne].
    + left. by rewrite assign_lookup_eq.
    + rewrite assign_lookup_ne by done.
      destruct H as [?|H]; [by left|]. apply elem_of_cons in H as [?|?]; [done|by right].
Qed.

Lemma foldl_put_values l o k c :
  own (foldl put_cell o l) !! k = Some c → own o !! k = Some c ∨ ∃ f, c = cell_of f.
Proof.
  revert o. induction l as [|[h f] l IH]; intros o H; [by left|].
  simpl in H. apply IH in H as [H|H]; [|by right].
  unfold put_cell in H. simpl in H.
  apply assign_lookup_Some in H as [H|[_ ->]]; [by left|]. right. by exists f.
Qed.

(** A key [__proto__] that is assigned at most once makes no property:
    the object still inherits the setter when it is assigned. *)
Lemma foldl_put_proto l o :
  NoDup l.*1 → null_proto o = false → own o !! "__proto__" = None →
  own (foldl put_cell o l) !! "__proto__" = None.
Proof.
  revert o. induction l as [|[h f] l IH]; intros o Hnd Hp Ho; [done|].
  simpl in *. apply NoDup_cons in Hnd as [Hh Hnd].
  unfold put_cell at 2. simpl. unfold assign. rewrite Hp.
  destruct (String.eqb_spec h "__proto__") as [->|Hne]; cbn [andb negb].
  - rewrite foldl_put_absent by done. by destruct (cell_of f).
  - apply IH; [done..|]. cbn [own]. by rewrite lookup_insert_ne.
Qed.
End fill.


Lemma fill_row_keys (headers values : list string) k :
  length values = length headers →
  is_Some (fill_row headers values !! k) → k ∈ headers.
Proof.
  intros Hlen H. unfold fill_row in H. apply foldl_put_keys in H.
  rewrite fst_zip in H by lia. destruct H as [[? H]|H]; [|done].
  cbn [fresh own] in H. by rewrite lookup_empty in H.
Qed.

Lemma fill_row_dom (headers values : list string) k :
  length values = length headers →
  k ≠ "__proto__" →
  is_Some (fill_row headers values !! k) ↔ k ∈ headers.
Proof.
  intros Hlen Hk. unfold fill_row. rewrite foldl_put_dom by done.
  cbn [fresh own]. rewrite lookup_empty.
  rewrite fst_zip by lia. split; [intros [[? ?]|?]; done | auto].
Qed.

Lemma fill_row_values (headers values : list string) k c :
  fill_row headers values !! k = Some c → ∃ f, c = cell_of f.
Proof.
  unfold fill_row. intros H. apply foldl_put_values in H as [H|H]; [|done].
  cbn [fresh own] in H. by rewrite lookup_empty in H.
Qed.

Lemma fill_row_proto (headers values : list string) :
  length values = length headers →
  NoDup headers → fill_row headers values !! "__proto__" = None.
Proof.
  intros Hlen Hnd. unfold fill_row. apply foldl_put_proto; [|done..].
  by rewrite fst_zip by lia.
Qed.

Lemma cell_of_spec (field : string) :
  cell_of field
  = if decide (Str.trim field = "" ∨ Str.trim field = "null")
    then None else Some (Str.trim field).
Proof.
  unfold cell_of. destruct (decide _) as [[H|H]|H].
  - by rewrite H.
  - by rewrite H.
  - destruct (String.eqb_spec (Str.trim field) ""); [tauto|].
    destruct (String.eqb_spec (Str.trim field) "null"); [tauto|done].
Qed.

Lemma cell_of_missing (field : string) :
  is_missing (cell_of field) = true ↔ cell_of field = None.
Proof.
  rewrite cell_of_spec. destruct (decide _) as [H|H]; [done|]. simpl.
  split; [|done]. intros E. apply String.eqb_eq in E. tauto.
Qed.

Lemma elem_of_List_filter {A} (f : A → bool) (l : list A) (x : A) :
  x ∈ List.filter f l ↔ x ∈ l ∧ f x = true.
Proof. rewrite !list_elem_of_In. apply filter_In. Qed.

(** ** The CSV parser *)

Lemma csv_headers_length (text : string) :
  length (csv_headers text)
  = length (Str.split Str.comma (hd "" (csv_lines text))).
Proof. unfold csv_headers, parse_headers. apply length_map. Qed.

Lemma parse_lines_app (headers before after : list string) (data : list Row) :
  parse_lines headers (before ++ after) data
  = parse_lines headers after (parse_lines headers before data).
Proof.
  revert data. induction before as [|line before IH]; intros data; [done|].
  simpl. by destruct (Nat.eqb _ _).
Qed.

(** C5: [parseCSV] returns, in input order, one row for exactly each data
    line that has as many comma-separated fields as the header line, and
    nothing for any other line: a line with another field count changes
    nothing in the result, a line with that count gives one row at its
    place. The result is a plain row list, with no error and no count of
    the dropped lines. Parsing "a,b\n1,2,3" and parsing a header-only text
    give the empty list; of the four data lines of
    "a,b\n1,2\n3\n4,5,6\n7,8" the first and the last are kept. *)
Theorem parseCSV_strict_arity :
  (∀ text,
     let header := hd "" (csv_lines text) in
     let kept :=
       List.filter
         (λ line, Nat.eqb (length (Str.split Str.comma line))
                          (length (Str.split Str.comma header)))
         (csv_data_lines text) in
     length (csv_headers text) = length (Str.split Str.comma header)
     ∧ parseCSV text = row_of_line (csv_headers text) <$> kept
     ∧ length (parseCSV text) = length kept
     ∧ ∀ (i : nat) line,
         kept !! i = Some line →
         parseCSV text !! i = Some (row_of_line (csv_headers text) line))
  ∧ (∀ headers before line after data,
       length (Str.split Str.comma line) ≠ length headers →
       parse_lines headers (before ++ line :: after) data
       = parse_lines headers (before ++ after) data)
  ∧ (∀ headers before line after data,
       length (Str.split Str.comma line) = length headers →
       parse_lines headers (before ++ line :: after) data
       = parse_lines headers after
           (parse_lines headers before data ++ [row_of_line headers line]))
  ∧ (∀ text, csv_data_lines text = [] → parseCSV text = [])
  ∧ parseCSV ("a,b" +:+ Str.nl +:+ "1,2,3") = []
  ∧ parseCSV "a,b" = []
  ∧ parseCSV ("a,b" +:+ Str.nl +:+ "1,2" +:+ Str.nl +:+ "3" +:+ Str.nl
              +:+ "4,5,6" +:+ Str.nl +:+ "7,8")
    = [ {[ "a" := Some "1"; "b" := Some "2" ]};
        {[ "a" := Some "7"; "b" := Some "8" ]} ].
Proof.
  split_and!.
  - intros text header kept.
    assert (Hkept : kept
                    = List.filter (arity_ok (csv_headers text)) (csv_data_lines text)).
    { subst kept. apply List.filter_ext. intros line. unfold arity_ok.
      by rewrite csv_headers_length. }
    split_and!.
    + apply csv_headers_length.
    + by rewrite Hkept, parseCSV_unfold.
    + by rewrite Hkept, parseCSV_unfold, length_fmap.
    + intros i line Hi. rewrite parseCSV_unfold, <- Hkept, list_lookup_fmap, Hi. done.
  - intros headers before line after data H.
    rewrite !parse_lines_spec, !List.filter_app. simpl. unfold arity_ok at 2.
    apply Nat.eqb_neq in H. by rewrite H.
  - intros headers before line after data H.
    rewrite parse_lines_app. simpl. apply Nat.eqb_eq in H. by rewrite H.
  - intros text H. by rewrite parseCSV_unfold, H.
  - vm_compute. reflexivity.
  - vm_compute. reflexivity.
  - vm_compute. reflexivity.
Qed.

Lemma parseCSV_strict_arity_witness :
  parse_lines ["a"; "b"] ["1,2"; "3"; "7,8"] []
  = parse_lines ["a"; "b"] ["1,2"; "7,8"] []
  ∧ parse_lines ["a"; "b"] ["1,2"; "7,8"] []
    = [ {[ "a" := Some "1"; "b" := Some "2" ]};
        {[ "a" := Some "7"; "b" := Some "8" ]} ].
Proof.
  destruct parseCSV_strict_arity as (_ & Hdrop & Hkeep & _).
  split.
  - apply (Hdrop ["a"; "b"] ["1,2"] "3" ["7,8"] []). vm_compute. lia.
  - etrans; [apply (Hkeep ["a"; "b"] ["1,2"] "7,8" [] []); vm_compute; reflexivity|].
    vm_compute. reflexivity.
Defined.



(** In a parsed row the empty string never occurs as a cell: there the
    test [value === null || value === ''] is the test for [null]. *)
Lemma parsed_cell_missing (text : string) (row : Row) (k : string) (c : cell) :
  row ∈ parseCSV text → row !! k = Some c →
  (is_missing c = true ↔ c = None).
Proof.
  rewrite parseCSV_unfold. intros Hin Hk.
  apply list_elem_of_fmap in Hin as (line & -> & _).
  unfold row_of_line in Hk. apply fill_row_values in Hk as [f ->].
  apply cell_of_missing.
Qed.

(** ** The scan of the raw rows *)

Lemma foldl_visit_value (vs : list cell) (c : counters) (hasNull : bool) :
  foldl visit_value (c, hasNull) vs
  = (Counters
       (rawMissing c
        + (if hasNull then 0 else if existsb is_missing vs then 1 else 0))
       (rawNulls c + Z.of_nat (length (List.filter is_missing vs)))
       (totalFields c + Z.of_nat (length vs))
       (validFields c
        + Z.of_nat (length (List.filter (λ v, negb (is_missing v)) vs))),
     hasNull || existsb is_missing vs).
Proof.
  revert c hasNull. induction vs as [|v vs IH]; intros [m n t k] hasNull.
  - destruct hasNull; simpl; (f_equal; try (f_equal; lia); try done).
  - change (foldl visit_value (Counters m n t k, hasNull) (v :: vs))
      with (foldl visit_value (visit_value (Counters m n t k, hasNull) v) vs).
    unfold visit_value at 2.
    destruct (is_missing v) eqn:E, hasNull; simpl; rewrite IH, ?E; simpl;
      destruct (existsb is_missing vs); simpl;
      (f_equal; try (f_equal; lia); try done).
Qed.

(** *** The order of the cells of a row does not matter *)

Lemma existsb_order {A} (f : A → bool) (l l' : list A) :
  l ≡ₚ l' → existsb f l = existsb f l'.
Proof.
  induction 1 as [|x l l' _ IH|x y l|l l' l'' _ IH1 _ IH2]; simpl.
  - done.
  - by rewrite IH.
  - by destruct (f x), (f y).
  - by rewrite IH1.
Qed.

Lemma filter_length_order {A} (f : A → bool) (l l' : list A) :
  l ≡ₚ l' → length (List.filter f l) = length (List.filter f l').
Proof.
  induction 1 as [|x l l' _ IH|x y l|l l' l'' _ IH1 _ IH2]; simpl.
  - done.
  - destruct (f x); simpl; by rewrite IH.
  - by destruct (f x), (f y).
  - by rewrite IH1.
Qed.

(** The counters after the inner [forEach] are the same for every order
    in which the cells of the row are visited. *)
Lemma scan_values_order (vs vs' : list cell) (c : counters) (hasNull : bool) :
  vs ≡ₚ vs' →
  foldl visit_value (c, hasNull) vs = foldl visit_value (c, hasNull) vs'.
Proof.
  intros H. rewrite !foldl_visit_value.
  rewrite (existsb_order _ _ _ H), !(filter_length_order _ _ _ H).
  by rewrite (Permutation_length H).
Qed.

(** So is the answer of [some]. *)
Lemma some_order (searchTerm : string) (vs vs' : list cell) :
  vs ≡ₚ vs' →
  existsb (value_matches searchTerm) vs = existsb (value_matches searchTerm) vs'.
Proof. apply existsb_order. Qed.

Lemma visit_row_spec (c : counters) (row : Row) :
  visit_row c row
  = Counters (rawMissing c + (if row_has_missing row then 1 else 0))
             (rawNulls c + Z.of_nat (missing_cells row))
             (totalFields c + Z.of_nat (size row))
             (validFields c + Z.of_nat (valid_cells row)).
Proof.
  unfold visit_row. rewrite foldl_visit_value. simpl.
  unfold row_has_missing, missing_cells, valid_cells, Object_values.
  by rewrite length_fmap, length_map_to_list.
Qed.

Lemma foldl_visit_row (rows : list Row) (c : counters) :
  foldl visit_row c rows
  = Counters (rawMissing c + Z.of_nat (length (List.filter row_has_missing rows)))
             (rawNulls c + Z.of_nat (sum_over missing_cells rows))
             (totalFields c + Z.of_nat (sum_over size rows))
             (validFields c + Z.of_nat (sum_over valid_cells rows)).
Proof.
  revert c. induction rows as [|row rows IH]; intros c.
  - destruct c. simpl. f_equal; lia.
  - simpl foldl. rewrite IH, visit_row_spec. simpl.
    destruct (row_has_missing row); simpl; f_equal; lia.
Qed.

Lemma scan_raw_spec (rows : list Row) :
  scan_raw rows
  = Counters (Z.of_nat (length (List.filter row_has_missing rows)))
             (Z.of_nat (sum_over missing_cells rows))
             (Z.of_nat (sum_over size rows))
             (Z.of_nat (sum_over valid_cells rows)).
Proof. unfold scan_raw. by rewrite foldl_visit_row. Qed.

Lemma row_has_missing_iff (row : Row) :
  row_has_missing row = true ↔ has_missing row.
Proof.
  unfold row_has_missing, has_missing, Object_values.
  rewrite existsb_exists. split.
  - intros (v & Hin & Hv). apply list_elem_of_In, list_elem_of_fmap in Hin.
    destruct Hin as ([k v'] & -> & Hin). apply elem_of_map_to_list in Hin. eauto.
  - intros (k & v & Hk & Hv). exists v. split; [|done].
    apply list_elem_of_In, list_elem_of_fmap. exists (k, v).
    split; [done|]. by apply elem_of_map_to_list.
Qed.

Lemma filter_partition_length {A} (f : A → bool) (l : list A) :
  (length (List.filter f l) + length (List.filter (λ x, negb (f x)) l))%nat
  = length l.
Proof. induction l as [|x l IH]; [done|]. simpl. destruct (f x); simpl; lia. Qed.

Lemma cells_partition (row : Row) :
  (missing_cells row + valid_cells row)%nat = size row.
Proof.
  unfold missing_cells, valid_cells. rewrite filter_partition_length.
  unfold Object_values. by rewrite length_fmap, length_map_to_list.
Qed.

(** ** Rounding to one decimal digit *)

Lemma nearest_tenth (y : Q) (t : Q) :
  (t <= y * 10 + (1 # 2))%Q → (y * 10 + (1 # 2) < t + 1)%Q →
  (- (1 # 20) <= t / 10 - y <= 1 # 20)%Q.
Proof.
  intros Hlo Hhi. unfold Qdiv. change (/ 10)%Q with (1 # 10)%Q. split; lra.
Qed.

Lemma toFixed1_rounded (x : Q) : rounded1 x (parseFloat (Fix (toFixed1 x))).
Proof.
  unfold rounded1, parseFloat. exists (tenths (toFixed1 x)).
  split; [reflexivity|]. unfold toFixed1.
  destruct (Qle_bool 0 x) eqn:E; cbn [tenths]; apply Qabs_Qle_condition.
  - pose proof (Qfloor_le (x * 10 + (1 # 2))) as Hlo.
    pose proof (Qlt_floor (x * 10 + (1 # 2))) as Hhi.
    rewrite inject_Z_plus in Hhi. change (inject_Z 1) with 1%Q in Hhi.
    by apply nearest_tenth.
  - pose proof (Qfloor_le (- x * 10 + (1 # 2))) as Hlo.
    pose proof (Qlt_floor (- x * 10 + (1 # 2))) as Hhi.
    rewrite inject_Z_plus in Hhi. change (inject_Z 1) with 1%Q in Hhi.
    rewrite inject_Z_opp.
    pose proof (nearest_tenth (- x) _ Hlo Hhi) as [H1 H2].
    revert H1 H2. generalize (inject_Z (Qfloor (- x * 10 + (1 # 2)))). intros t.
    unfold Qdiv. change (/ 10)%Q with (1 # 10)%Q. intros H1 H2. split; lra.
Qed.

Lemma toFixed1_nonneg (x : Q) :
  (0 <= x)%Q → toFixed1 x = Fixed1 (Qfloor (x * 10 + (1 # 2))%Q).
Proof. intros H. unfold toFixed1. apply Qle_bool_iff in H. by rewrite H. Qed.

Lemma tenths_lower (x : Q) (k : Z) :
  (0 <= x)%Q → (inject_Z k <= x * 10 + (1 # 2))%Q → k ≤ tenths (toFixed1 x).
Proof.
  intros Hx Hk. rewrite toFixed1_nonneg by done. cbn [tenths].
  rewrite <- (Qfloor_Z k). by apply Qfloor_resp_le.
Qed.

Lemma tenths_upper (x : Q) (k : Z) :
  (0 <= x)%Q → (x * 10 + (1 # 2) < inject_Z k)%Q → tenths (toFixed1 x) < k.
Proof.
  intros Hx Hk. rewrite toFixed1_nonneg by done. cbn [tenths].
  rewrite Zlt_Qlt. eapply Qle_lt_trans; [apply Qfloor_le | done].
Qed.

Lemma inject_Z_pos (z : Z) : 0 < z → (0 < inject_Z z)%Q.
Proof. intros H. change 0%Q with (inject_Z 0). by rewrite <- Zlt_Qlt. Qed.

Lemma ratio_nonneg (a b : Z) : 0 ≤ a → 0 < b → (0 <= inject_Z a / inject_Z b * 100)%Q.
Proof.
  intros Ha Hb. apply Qmult_le_0_compat; [|done].
  apply Qle_shift_div_l; [by apply inject_Z_pos|].
  rewrite Qmult_0_l. change 0%Q with (inject_Z 0). by rewrite <- Zle_Qle.
Qed.

(** ** The quality calculator *)

Lemma filter_length_le {A} (f : A → bool) (l : list A) :
  (length (List.filter f l) ≤ length l)%nat.
Proof. induction l as [|x l IH]; simpl; [lia|]. destruct (f x); simpl; lia. Qed.

Lemma missing_rows_le_nulls (rows : list Row) :
  (length (List.filter row_has_missing rows) ≤ sum_over missing_cells rows)%nat.
Proof.
  induction rows as [|row rows IH]; simpl; [lia|].
  destruct (row_has_missing row) eqn:E; simpl; [|lia].
  enough (1 ≤ missing_cells row)%nat by lia.
  unfold row_has_missing in E. unfold missing_cells.
  induction (Object_values row) as [|v vs IHv]; simpl in *; [done|].
  destruct (is_missing v); simpl in *; [lia | auto].
Qed.

(** C7: the raw-side figures of [calculateStats]. [missing] is the number
    of raw rows with at least one null field, each such row counted once;
    [nulls] is the number of null cells over all raw rows; a cell counts as
    null when it is [null] or the empty string, which for parsed rows is
    the same as being [null];
    [completeness] is validFields / totalFields * 100 rounded to one decimal
    digit, over all cells and the non-null ones, and 0 without cells;
    [validity] is (rawTotal - rawMissing) / rawTotal * 100 rounded to one
    decimal digit, and 0 without raw rows. *)
Theorem calculateStats_raw_metrics (rawRows cleanedRows : list Row) :
  let s := calculateStats rawRows cleanedRows in
  let rawTotal := Z.of_nat (length rawRows) in
  let rowsMissing := Z.of_nat (length (List.filter row_has_missing rawRows)) in
  let cellsMissing := Z.of_nat (sum_over missing_cells rawRows) in
  let cells := Z.of_nat (sum_over size rawRows) in
  let cellsValid := Z.of_nat (sum_over valid_cells rawRows) in
  missing (raw s) = rowsMissing
  ∧ (∀ row, row_has_missing row = true ↔ has_missing row)
  ∧ (∀ text row k c, row ∈ parseCSV text → row !! k = Some c →
       (is_missing c = true ↔ c = None))
  ∧ rowsMissing ≤ rawTotal
  ∧ rowsMissing ≤ cellsMissing
  ∧ nulls (raw s) = cellsMissing
  ∧ (∀ row, (missing_cells row + valid_cells row)%nat = size row)
  ∧ (cells = 0 → completeness (raw s) = 0%Q)
  ∧ (0 < cells →
     rounded1 (inject_Z cellsValid / inject_Z cells * 100) (completeness (raw s)))
  ∧ (rawTotal = 0 → validity (raw s) = 0%Q)
  ∧ (0 < rawTotal →
     rounded1 (inject_Z (rawTotal - rowsMissing) / inject_Z rawTotal * 100)
              (validity (raw s))).
Proof.
  intros s rawTotal rowsMissing cellsMissing cells cellsValid.
  subst s. unfold calculateStats. rewrite scan_raw_spec.
  cbn [raw missing nulls completeness validity rawMissing rawNulls
       totalFields validFields].
  fold rawTotal rowsMissing cellsMissing cells cellsValid.
  split_and!.
  - done.
  - apply row_has_missing_iff.
  - apply parsed_cell_missing.
  - pose proof (filter_length_le row_has_missing rawRows). lia.
  - pose proof (missing_rows_le_nulls rawRows). lia.
  - done.
  - apply cells_partition.
  - intros ->. done.
  - intros H. apply Z.ltb_lt in H. rewrite H. apply toFixed1_rounded.
  - intros ->. done.
  - intros H. apply Z.ltb_lt in H. rewrite H. apply toFixed1_rounded.
Qed.

Lemma calculateStats_raw_metrics_witness :
  let rawRows : list Row := [ {[ "a" := Some "1"; "b" := None ]}; {[ "a" := None; "b" := None ]} ] in
  let s := calculateStats rawRows [] in
  missing (raw s) = 2 ∧ nulls (raw s) = 3
  ∧ rounded1 (inject_Z 1 / inject_Z 4 * 100) (completeness (raw s))
  ∧ rounded1 (inject_Z (2 - 2) / inject_Z 2 * 100) (validity (raw s)).
Proof.
  intros rawRows s.
  destruct (calculateStats_raw_metrics rawRows [])
    as (Hm & _ & _ & _ & _ & Hn & _ & _ & Hc & _ & Hv).
  split_and!.
  - exact Hm.
  - exact Hn.
  - apply Hc. vm_compute. reflexivity.
  - apply Hv. vm_compute. reflexivity.
Defined.

(** C8: [removed] is raw.total - cleaned.total; [quality] is
    cleaned.total / raw.total * 100 rounded to one decimal digit, and 0
    when raw.total is 0; the cleaned-side figures are the constants 0, 0,
    100, 100, 100 whatever the cleaned rows hold. For
    raw = [{a:"1"},{a:null}] and cleaned = [{a:"1"}]: rawMissing 1,
    quality 50.0, removed 1, completeness 50.0, validity 50.0. *)
Theorem calculateStats_summary :
  (∀ rawRows cleanedRows : list Row,
     let s := calculateStats rawRows cleanedRows in
     total (raw s) = Z.of_nat (length rawRows)
     ∧ total (cleaned s) = Z.of_nat (length cleanedRows)
     ∧ removed s = total (raw s) - total (cleaned s)
     ∧ (total (raw s) = 0 → quality s = Num 0%Q)
     ∧ (0 < total (raw s) →
        rounded1 (inject_Z (total (cleaned s)) / inject_Z (total (raw s)) * 100)
                 (numeric (quality s)))
     ∧ missing (cleaned s) = 0
     ∧ nulls (cleaned s) = 0
     ∧ completeness (cleaned s) = 100%Q
     ∧ validity (cleaned s) = 100%Q
     ∧ consistency (cleaned s) = 100%Q)
  ∧ (let s := calculateStats [ {[ "a" := Some "1" ]}; {[ "a" := None ]} ]
                             [ {[ "a" := Some "1" ]} ] in
     missing (raw s) = 1
     ∧ total (raw s) = 2
     ∧ total (cleaned s) = 1
     ∧ quality s = Fix (Fixed1 500)
     ∧ (numeric (quality s) == 50)%Q
     ∧ removed s = 1
     ∧ (completeness (raw s) == 50)%Q
     ∧ (validity (raw s) == 50)%Q).
Proof.
  split.
  - intros rawRows cleanedRows s. subst s. unfold calculateStats.
    cbn [raw cleaned total missing nulls completeness validity consistency
         quality removed].
    split_and!; try done.
    + intros ->. done.
    + intros H. apply Z.ltb_lt in H. rewrite H. apply toFixed1_rounded.
  - vm_compute. split_and!; reflexivity.
Qed.

Lemma calculateStats_summary_witness :
  let s := calculateStats [ {[ "a" := Some "1" ]}; {[ "a" := None ]} ]
                          [ {[ "a" := Some "1" ]} ] in
  rounded1 (inject_Z (total (cleaned s)) / inject_Z (total (raw s)) * 100)
           (numeric (quality s)).
Proof.
  intros s.
  apply (proj1 calculateStats_summary
           [ {[ "a" := Some "1" ]}; {[ "a" := None ]} ] [ {[ "a" := Some "1" ]} ]).
  vm_compute. reflexivity.
Defined.

(** C9: the raw-side [consistency] is numerically the [quality]: the
    numerator rawTotal - (rawTotal - cleanedTotal) is cleanedTotal, so both
    are the same rounded percentage, and both are 0 when rawTotal is 0. *)
Theorem consistency_equals_quality (rawRows cleanedRows : list Row) :
  let s := calculateStats rawRows cleanedRows in
  let rawTotal := Z.of_nat (length rawRows) in
  let cleanedTotal := Z.of_nat (length cleanedRows) in
  consistency (raw s) = numeric (quality s)
  ∧ (inject_Z (rawTotal - (rawTotal - cleanedTotal)) / inject_Z rawTotal * 100
     = inject_Z cleanedTotal / inject_Z rawTotal * 100)%Q
  ∧ (rawTotal = 0 → consistency (raw s) = 0%Q ∧ numeric (quality s) = 0%Q).
Proof.
  intros s rawTotal cleanedTotal.
  assert (E : rawTotal - (rawTotal - cleanedTotal) = cleanedTotal) by lia.
  subst s. unfold calculateStats, numeric.
  cbn [raw consistency quality]. fold rawTotal cleanedTotal.
  rewrite E. split_and!; [done..|].
  intros ->. done.
Qed.

Lemma consistency_equals_quality_witness :
  consistency (raw (calculateStats [] [ {[ "a" := Some "1" ]} ])) = 0%Q
  ∧ numeric (quality (calculateStats [] [ {[ "a" := Some "1" ]} ])) = 0%Q.
Proof.
  apply (consistency_equals_quality [] [ {[ "a" := Some "1" ]} ]).
  reflexivity.
Defined.

(** *** More cleaned rows than raw rows *)

Lemma quality_of_counts (rawRows cleanedRows : list Row) :
  rawRows ≠ [] →
  quality (calculateStats rawRows cleanedRows)
  = Fix (toFixed1 (inject_Z (Z.of_nat (length cleanedRows))
                   / inject_Z (Z.of_nat (length rawRows)) * 100)%Q).
Proof.
  intros Hne. unfold calculateStats. cbn [quality].
  destruct rawRows as [|row rows]; [done|].
  assert (H : (0 <? Z.of_nat (length (row :: rows))) = true).
  { apply Z.ltb_lt. simpl length. lia. }
  by rewrite H.
Qed.

Lemma tenths_value (t : Z) : (inject_Z t / 10 == t # 10)%Q.
Proof. unfold Qeq, Qdiv, Qmult, Qinv, inject_Z. simpl. lia. Qed.

(** C10, as it holds: with more cleaned rows than raw rows [removed] is
    negative, and over a non-empty raw sequence [quality] is at least 100;
    it is above 100 when the surplus of cleaned rows exceeds 0.05 percent
    of the raw rows, and is exactly 100.0 when the surplus is below that. *)
Theorem calculateStats_unclamped (rawRows cleanedRows : list Row) :
  (length rawRows < length cleanedRows)%nat →
  let s := calculateStats rawRows cleanedRows in
  let rawTotal := Z.of_nat (length rawRows) in
  let cleanedTotal := Z.of_nat (length cleanedRows) in
  removed s < 0
  ∧ (rawRows ≠ [] →
     (100 <= numeric (quality s))%Q
     ∧ (rawTotal < 2000 * (cleanedTotal - rawTotal) → (100 < numeric (quality s))%Q)
     ∧ (2000 * (cleanedTotal - rawTotal) < rawTotal → (numeric (quality s) == 100)%Q)).
Proof.
  intros Hlt s rawTotal cleanedTotal. split.
  { subst s. unfold calculateStats. cbn [removed]. lia. }
  intros Hne. subst s. rewrite quality_of_counts by done.
  fold rawTotal cleanedTotal. unfold numeric, parseFloat.
  assert (Hr : 0 < rawTotal).
  { subst rawTotal. destruct rawRows; [done | simpl length; lia]. }
  assert (Hc : rawTotal < cleanedTotal) by (subst rawTotal cleanedTotal; lia).
  pose proof (inject_Z_pos _ Hr) as Hrq.
  set (x := (inject_Z cleanedTotal / inject_Z rawTotal * 100)%Q).
  assert (Hx : (0 <= x)%Q) by (apply ratio_nonneg; lia).
  assert (H1 : (1 <= inject_Z cleanedTotal / inject_Z rawTotal)%Q).
  { apply Qle_shift_div_l; [done|]. rewrite Qmult_1_l, <- Zle_Qle. lia. }
  assert (Hlow : 1000 ≤ tenths (toFixed1 x)).
  { apply tenths_lower; [done|]. subst x. change (inject_Z 1000) with 1000%Q. lra. }
  split_and!.
  - rewrite tenths_value. unfold Qle. simpl. lia.
  - intros Hbig.
    assert (H2 : ((2001 # 2000) <= inject_Z cleanedTotal / inject_Z rawTotal)%Q).
    { apply Qle_shift_div_l; [done|].
      assert (H : (inject_Z (2001 * rawTotal) <= inject_Z (2000 * cleanedTotal))%Q).
      { rewrite <- Zle_Qle. lia. }
      rewrite !inject_Z_mult in H.
      change (inject_Z 2001) with 2001%Q in H. change (inject_Z 2000) with 2000%Q in H.
      lra. }
    assert (Hup : 1001 ≤ tenths (toFixed1 x)).
    { apply tenths_lower; [done|]. subst x. change (inject_Z 1001) with 1001%Q. lra. }
    rewrite tenths_value. unfold Qlt. simpl. lia.
  - intros Hsmall.
    assert (H2 : (inject_Z cleanedTotal / inject_Z rawTotal < (2001 # 2000))%Q).
    { apply Qlt_shift_div_r; [done|].
      assert (H : (inject_Z (2000 * cleanedTotal) < inject_Z (2001 * rawTotal))%Q).
      { rewrite <- Zlt_Qlt. lia. }
      rewrite !inject_Z_mult in H.
      change (inject_Z 2001) with 2001%Q in H. change (inject_Z 2000) with 2000%Q in H.
      lra. }
    assert (Hup : tenths (toFixed1 x) < 1001).
    { apply tenths_upper; [done|]. subst x. change (inject_Z 1001) with 1001%Q. lra. }
    rewrite tenths_value. unfold Qeq. simpl. lia.
Qed.

Lemma calculateStats_unclamped_witness :
  let rawRows : list Row := [ {[ "a" := Some "1" ]} ] in
  let cleanedRows : list Row := [ {[ "a" := Some "1" ]}; {[ "a" := Some "2" ]} ] in
  removed (calculateStats rawRows cleanedRows) < 0
  ∧ (100 < numeric (quality (calculateStats rawRows cleanedRows)))%Q.
Proof.
  intros rawRows cleanedRows.
  assert (Hlt : (length rawRows < length cleanedRows)%nat) by (simpl; lia).
  destruct (calculateStats_unclamped rawRows cleanedRows Hlt) as [Hrem Hq].
  split; [exact Hrem|].
  destruct Hq as (_ & Hbig & _); [done|].
  apply Hbig. simpl. lia.
Defined.

(** C10, as stated, fails: with 3000 raw rows and 3001 cleaned rows the
    quotient is 100.03..., which [toFixed(1)] prints as 100.0. *)
Lemma quality_above_100_counterexample :
  let rawRows : list Row := replicate 3000 {[ "a" := Some "1" ]} in
  let cleanedRows : list Row := replicate 3001 {[ "a" := Some "1" ]} in
  (length rawRows < length cleanedRows)%nat
  ∧ rawRows ≠ []
  ∧ quality (calculateStats rawRows cleanedRows) = Fix (Fixed1 1000)
  ∧ ¬ (100 < numeric (quality (calculateStats rawRows cleanedRows)))%Q.
Proof.
  intros rawRows cleanedRows.
  assert (Hq : quality (calculateStats rawRows cleanedRows) = Fix (Fixed1 1000)).
  { vm_compute. reflexivity. }
  split_and!.
  - subst rawRows cleanedRows. rewrite !length_replicate. lia.
  - discriminate.
  - exact Hq.
  - rewrite Hq. vm_compute. discriminate.
Qed.

(** ** Views *)

Lemma set_page_view (v v' : view) (page : Z) (st : AppState) :
  view_of (paginationState (set_page v page st)) v'
  = if decide (v = v')
    then {| currentPage := page;
            itemsPerPage := itemsPerPage (view_of (paginationState st) v);
            filteredData := filteredData (view_of (paginationState st) v) |}
    else view_of (paginationState st) v'.
Proof. destruct v, v'; done. Qed.

Lemma set_filteredData_view (v v' : view) (rows : list Row) (st : AppState) :
  view_of (paginationState (set_filteredData v rows st)) v'
  = if decide (v = v')
    then {| currentPage := currentPage (view_of (paginationState st) v);
            itemsPerPage := itemsPerPage (view_of (paginationState st) v);
            filteredData := rows |}
    else view_of (paginationState st) v'.
Proof. destruct v, v'; done. Qed.

Lemma set_itemsPerPage_view (v v' : view) (n : Z) (st : AppState) :
  view_of (paginationState (set_itemsPerPage v n st)) v'
  = if decide (v = v')
    then {| currentPage := currentPage (view_of (paginationState st) v);
            itemsPerPage := n;
            filteredData := filteredData (view_of (paginationState st) v) |}
    else view_of (paginationState st) v'.
Proof. destruct v, v'; done. Qed.

(** ** Search *)


Lemma List_filter_sublist {A} (f : A → bool) (l : list A) :
  List.filter f l `sublist_of` l.
Proof.
  induction l as [|x l IH]; simpl; [constructor|].
  destruct (f x); by constructor.
Qed.

Lemma filterData_view (v : view) (searchTerm : string) (st : AppState) :
  view_of (paginationState (filterData v searchTerm st)) v
  = {| currentPage := 1;
       itemsPerPage := itemsPerPage (view_of (paginationState st) v);
       filteredData :=
         if String.eqb searchTerm "" then sourceData v st
         else List.filter (row_matches searchTerm) (sourceData v st) |}.
Proof.
  unfold filterData. rewrite set_page_view, decide_True by done.
  destruct (String.eqb searchTerm ""); rewrite set_filteredData_view, decide_True; done.
Qed.



(** ** Page navigation *)

Lemma ceiling_of_quotient (a b : Z) :
  0 < b →
  let m := Qceiling (inject_Z a / inject_Z b)%Q in
  a ≤ m * b ∧ (m - 1) * b < a.
Proof.
  intros Hb m. pose proof (inject_Z_pos _ Hb) as Hbq.
  set (q := (inject_Z a / inject_Z b)%Q) in *.
  assert (E : (q * inject_Z b == inject_Z a)%Q).
  { subst q. rewrite Qmult_comm. apply Qmult_div_r.
    intros H0. rewrite H0 in Hbq. by apply Qlt_irrefl in Hbq. }
  pose proof (Qle_ceiling q) as Hup. pose proof (Qceiling_lt q) as Hlo.
  fold m in Hup, Hlo. split.
  - apply (Qmult_le_compat_r _ _ (inject_Z b)) in Hup; [|by apply Qlt_le_weak].
    rewrite E, <- inject_Z_mult, <- Zle_Qle in Hup. done.
  - apply (Qmult_lt_compat_r _ _ (inject_Z b)) in Hlo; [|done].
    rewrite E, <- inject_Z_mult, <- Zlt_Qlt in Hlo. done.
Qed.

Lemma maxPage_ceiling (s : ViewState) :
  0 < itemsPerPage s →
  Z.of_nat (length (filteredData s)) ≤ maxPage s * itemsPerPage s
  ∧ (maxPage s - 1) * itemsPerPage s < Z.of_nat (length (filteredData s)).
Proof. intros H. by apply ceiling_of_quotient. Qed.

Lemma set_page_same (v : view) (st : AppState) :
  set_page v (currentPage (view_of (paginationState st) v)) st = st.
Proof. destruct st as [d r c ds [[] []]], v; done. Qed.

Lemma set_page_inj (v : view) (p q : Z) (st : AppState) :
  set_page v p st = set_page v q st → p = q.
Proof.
  intros H. apply (f_equal (λ st, currentPage (view_of (paginationState st) v))) in H.
  by rewrite !set_page_view, !decide_True in H.
Qed.

(** C3: the next-page button adds exactly 1 to [currentPage] when
    [currentPage] is below the number of pages, the ceiling of
    [filteredData.length / itemsPerPage], and changes nothing otherwise;
    the previous-page button subtracts exactly 1 when [currentPage] is
    above 1 and changes nothing otherwise. With 5 rows and 2 rows per
    page there are 3 pages, and the buttons change nothing on page 3 and
    on page 1 respectively. *)
Theorem page_navigation (v : view) (st : AppState) :
  let s := view_of (paginationState st) v in
  let len := Z.of_nat (length (filteredData s)) in
  0 < itemsPerPage s →
  (len ≤ maxPage s * itemsPerPage s ∧ (maxPage s - 1) * itemsPerPage s < len)
  ∧ (currentPage s < maxPage s → nextPage v st = set_page v (currentPage s + 1) st)
  ∧ (¬ currentPage s < maxPage s → nextPage v st = st)
  ∧ (nextPage v st = set_page v (currentPage s + 1) st ↔ currentPage s < maxPage s)
  ∧ (1 < currentPage s → prevPage v st = set_page v (currentPage s - 1) st)
  ∧ (¬ 1 < currentPage s → prevPage v st = st)
  ∧ (prevPage v st = set_page v (currentPage s - 1) st ↔ 1 < currentPage s)
  ∧ (len = 5 → itemsPerPage s = 2 →
     maxPage s = 3
     ∧ (currentPage s = 3 → nextPage v st = st)
     ∧ (currentPage s = 1 → prevPage v st = st)).
Proof.
  intros s len Hpos.
  pose proof (maxPage_ceiling s Hpos) as Hceil. fold len in Hceil.
  assert (Hnext : currentPage s < maxPage s →
                  nextPage v st = set_page v (currentPage s + 1) st).
  { intros H. unfold nextPage. fold s. apply Z.ltb_lt in H. by rewrite H. }
  assert (Hstay : ¬ currentPage s < maxPage s → nextPage v st = st).
  { intros H. unfold nextPage. fold s. apply Z.ltb_nlt in H. by rewrite H. }
  assert (Hprev : 1 < currentPage s →
                  prevPage v st = set_page v (currentPage s - 1) st).
  { intros H. unfold prevPage. fold s. apply Z.ltb_lt in H. by rewrite H. }
  assert (Hkeep : ¬ 1 < currentPage s → prevPage v st = st).
  { intros H. unfold prevPage. fold s. apply Z.ltb_nlt in H. by rewrite H. }
  assert (Hnext_iff : nextPage v st = set_page v (currentPage s + 1) st
                      ↔ currentPage s < maxPage s).
  { split; [|done]. intros H.
    destruct (decide (currentPage s < maxPage s)) as [|Hn]; [done|].
    rewrite (Hstay Hn) in H. rewrite <- (set_page_same v st) in H at 1.
    apply set_page_inj in H. fold s in H. lia. }
  assert (Hprev_iff : prevPage v st = set_page v (currentPage s - 1) st
                      ↔ 1 < currentPage s).
  { split; [|done]. intros H.
    destruct (decide (1 < currentPage s)) as [|Hn]; [done|].
    rewrite (Hkeep Hn) in H. rewrite <- (set_page_same v st) in H at 1.
    apply set_page_inj in H. fold s in H. lia. }
  refine (conj Hceil (conj Hnext (conj Hstay (conj Hnext_iff
            (conj Hprev (conj Hkeep (conj Hprev_iff _))))))).
  intros Hlen Hipp. rewrite Hlen, Hipp in Hceil.
  assert (Hmax : maxPage s = 3) by lia.
  split_and!; [done| |].
  - intros Hcp. apply Hstay. lia.
  - intros Hcp. apply Hkeep. lia.
Qed.

Lemma page_navigation_witness :
  let row : Row := {[ "a" := Some "1" ]} in
  let st page :=
    {| currentDataset := "field"; rawData := replicate 5 row; cleanedData := [];
       dataStats := calculateStats (replicate 5 row) [];
       paginationState :=
         {| pg_raw := {| currentPage := page; itemsPerPage := 2;
                         filteredData := replicate 5 row |};
            pg_cleaned := initial_view |} |} in
  maxPage (view_of (paginationState (st 3)) RawView) = 3
  ∧ nextPage RawView (st 3) = st 3
  ∧ prevPage RawView (st 1) = st 1
  ∧ nextPage RawView (st 2) = set_page RawView 3 (st 2).
Proof.
  intros row st.
  assert (Hpos : ∀ page, 0 < itemsPerPage (view_of (paginationState (st page)) RawView))
    by (intros page; simpl; lia).
  destruct (page_navigation RawView (st 3) (Hpos 3)) as (_ & _ & _ & _ & _ & _ & _ & H3).
  destruct (page_navigation RawView (st 1) (Hpos 1)) as (_ & _ & _ & _ & _ & _ & _ & H1).
  destruct (page_navigation RawView (st 2) (Hpos 2)) as (_ & H2 & _).
  destruct H3 as (Hmax & Hfwd & _); [reflexivity.. |].
  destruct H1 as (_ & _ & Hback); [reflexivity.. |].
  split_and!.
  - exact Hmax.
  - apply Hfwd. reflexivity.
  - apply Hback. reflexivity.
  - apply H2. vm_compute. reflexivity.
Defined.

(** ** The dataset loader *)

Lemma paths_of_entry (datasetName : string) (dataset : Dataset) :
  DATASETS !! datasetName = Some dataset →
  paths_of datasetName = Some (rawPath dataset, cleanedPath dataset).
Proof. intros H. unfold paths_of. by rewrite H. Qed.

(** A name outside the catalog that gets to fetch fetches one path twice. *)
Lemma paths_of_inherited (datasetName raw cleaned : string) :
  DATASETS !! datasetName = None →
  paths_of datasetName = Some (raw, cleaned) →
  datasetName ∈ Object_prototype_names ∧ raw = "undefined" ∧ cleaned = "undefined".
Proof.
  intros H. unfold paths_of. rewrite H. case_bool_decide; [|done].
  by intros [= <- <-].
Qed.

Lemma loadDataset_cases (net : Network) (datasetName : string) (st : AppState) :
  let st1 := set_currentDataset datasetName st in
  loadDataset net datasetName st =
  match paths_of datasetName with
  | None => (st1, LoadFailed)
  | Some (raw, cleaned) =>
      match net raw with
      | None => (st1, LoadFailed)
      | Some rawText =>
          let st2 := set_rawData (parseCSV rawText) st1 in
          match net cleaned with
          | None => (st2, LoadFailed)
          | Some cleanedText =>
              let st3 := set_cleanedData (parseCSV cleanedText) st2 in
              let st4 := set_dataStats (calculateStats (rawData st3) (cleanedData st3)) st3 in
              (set_page CleanedView 1
                 (set_filteredData CleanedView (cleanedData st4)
                    (set_page RawView 1
                       (set_filteredData RawView (rawData st4) st4))),
               Loaded)
          end
      end
  end.
Proof.
  intros st1. unfold loadDataset, loadDataset_try, dataset_of, paths_of, fetch_text.
  unfold mbind, eff_bind, mret, eff_ret, modify, throw. fold st1.
  destruct (DATASETS !! datasetName) as [dataset|]; cbn [path_of from_option].
  - destruct (net (rawPath dataset)) as [rawText|]; [|done].
    destruct (net (cleanedPath dataset)) as [cleanedText|]; done.
  - case_bool_decide; [|done]. cbn [path_of from_option].
    destruct (net "undefined") as [text|]; done.
Qed.

(** What a load does to the pagination state: nothing when it fails, and
    both views reset to page 1 over the new rows when it succeeds. *)
Lemma loadDataset_pagination (net : Network) (datasetName : string) (st : AppState) :
  let st' := (loadDataset net datasetName st).1 in
  paginationState st' = paginationState st
  ∨ ∀ v, currentPage (view_of (paginationState st') v) = 1
         ∧ itemsPerPage (view_of (paginationState st') v)
           = itemsPerPage (view_of (paginationState st) v)
         ∧ filteredData (view_of (paginationState st') v) = sourceData v st'.
Proof.
  intros st'. subst st'. rewrite loadDataset_cases.
  destruct (paths_of datasetName) as [[raw cleaned]|]; [|by left].
  destruct (net raw) as [rawText|]; [|by left].
  destruct (net cleaned) as [cleanedText|]; [|by left].
  right. intros []; done.
Qed.

(** C1, as it holds: a load that fails at a fetch leaves the cleaned rows,
    the statistics and the pagination state of both views as they were. The
    raw rows are as they were when the failure precedes the reading of the
    raw file (unknown dataset, failed raw fetch); when the raw file was read
    and the cleaned fetch failed, [rawData] holds the newly parsed raw rows. *)
Theorem load_failure_state (net : Network) (datasetName : string) (st : AppState) :
  (loadDataset net datasetName st).2 = LoadFailed →
  let st' := (loadDataset net datasetName st).1 in
  cleanedData st' = cleanedData st
  ∧ dataStats st' = dataStats st
  ∧ paginationState st' = paginationState st
  ∧ (DATASETS !! datasetName = None → rawData st' = rawData st)
  ∧ (∀ dataset, DATASETS !! datasetName = Some dataset →
       net (rawPath dataset) = None → rawData st' = rawData st)
  ∧ (∀ dataset rawText, DATASETS !! datasetName = Some dataset →
       net (rawPath dataset) = Some rawText →
       net (cleanedPath dataset) = None ∧ rawData st' = parseCSV rawText).
Proof.
  intros Hfail st'. subst st'. revert Hfail. rewrite loadDataset_cases.
  destruct (paths_of datasetName) as [[raw cleaned]|] eqn:Ep.
  2:{ intros _. split_and!; try done.
      intros d t Hd. apply paths_of_entry in Hd. congruence. }
  destruct (net raw) as [rawText|] eqn:Er.
  2:{ intros _. split_and!; try done.
      intros d t Hd Ht. apply paths_of_entry in Hd. by simplify_eq. }
  destruct (net cleaned) as [cleanedText|] eqn:Ec; [done|].
  intros _. split_and!; try done.
  - intros Hd. destruct (paths_of_inherited _ _ _ Hd Ep) as (_ & -> & ->). congruence.
  - intros d Hd. apply paths_of_entry in Hd. simplify_eq. congruence.
  - intros d t Hd Ht. apply paths_of_entry in Hd. by simplify_eq.
Qed.

Lemma load_failure_state_witness :
  let net : Network :=
    λ path, if String.eqb path "data/raw/sales.csv"
            then Some ("id" +:+ Str.nl +:+ "7") else None in
  let rows : list Row := [ {[ "id" := Some "1" ]} ] in
  let st := {| currentDataset := "field"; rawData := rows; cleanedData := rows;
               dataStats := calculateStats rows rows;
               paginationState :=
                 {| pg_raw := {| currentPage := 1; itemsPerPage := 50;
                                 filteredData := rows |};
                    pg_cleaned := {| currentPage := 1; itemsPerPage := 50;
                                     filteredData := rows |} |} |} in
  cleanedData (loadDataset net "sales" st).1 = rows
  ∧ paginationState (loadDataset net "sales" st).1 = paginationState st.
Proof.
  intros net rows st.
  assert (Hfail : (loadDataset net "sales" st).2 = LoadFailed)
    by (vm_compute; reflexivity).
  destruct (load_failure_state net "sales" st Hfail) as (Hc & _ & Hp & _).
  split; [exact Hc | exact Hp].
Defined.

(** C1, as stated, fails: when the raw file of the selected dataset is
    read and the fetch of its cleaned file is rejected, the load reports
    failure and [rawData] already holds the new raw rows, next to the old
    [cleanedData]. *)
Lemma load_not_atomic_counterexample :
  let net : Network :=
    λ path, if String.eqb path "data/raw/sales.csv"
            then Some ("id" +:+ Str.nl +:+ "7") else None in
  let rows : list Row := [ {[ "id" := Some "1" ]} ] in
  let st := {| currentDataset := "field"; rawData := rows; cleanedData := rows;
               dataStats := calculateStats rows rows;
               paginationState :=
                 {| pg_raw := {| currentPage := 1; itemsPerPage := 50;
                                 filteredData := rows |};
                    pg_cleaned := {| currentPage := 1; itemsPerPage := 50;
                                     filteredData := rows |} |} |} in
  (loadDataset net "sales" st).2 = LoadFailed
  ∧ rawData (loadDataset net "sales" st).1 = [ {[ "id" := Some "7" ]} ]
  ∧ cleanedData (loadDataset net "sales" st).1 = [ {[ "id" := Some "1" ]} ]
  ∧ ¬ (rawData (loadDataset net "sales" st).1 = rawData st
       ∧ cleanedData (loadDataset net "sales" st).1 = cleanedData st).
Proof.
  intros net rows st.
  assert (Hraw : rawData (loadDataset net "sales" st).1 = [ {[ "id" := Some "7" ]} ])
    by (vm_compute; reflexivity).
  split_and!.
  - vm_compute. reflexivity.
  - exact Hraw.
  - vm_compute. reflexivity.
  - intros [H _]. rewrite Hraw in H. vm_compute in H. discriminate.
Qed.

(** ** The page-number invariant *)

Lemma page_inv_first (s : ViewState) : currentPage s = 1 → page_inv s.
Proof. intros H. unfold page_inv. lia. Qed.

Lemma step_pagination_ok (net : Network) (st : AppState) (a : action) :
  action_ok a →
  pagination_ok (paginationState st) →
  pagination_ok (paginationState (step net st a)).
Proof.
  intros Ha Hok. destruct a as [datasetName|v term|v n|v|v]; cbn [step action_ok] in *.
  - destruct (loadDataset_pagination net datasetName st) as [->|Hreset]; [done|].
    intros v. destruct (Hreset v) as (Hpage & Hsize & _). rewrite Hsize.
    split; [apply Hok | by apply page_inv_first].
  - intros v'. destruct (decide (v = v')) as [<-|Hne].
    + unfold search. rewrite filterData_view. cbn [itemsPerPage].
      split; [apply Hok | by apply page_inv_first].
    + unfold search, filterData. rewrite set_page_view, decide_False by done.
      destruct (String.eqb _ _);
        rewrite set_filteredData_view, decide_False by done; apply Hok.
  - intros v'. unfold changeLimit. rewrite set_page_view.
    destruct (decide (v = v')) as [<-|Hne].
    + rewrite set_itemsPerPage_view, decide_True by done. cbn [itemsPerPage].
      split; [done | by apply page_inv_first].
    + rewrite set_itemsPerPage_view, decide_False by done. apply Hok.
  - intros v'. unfold nextPage.
    destruct (Z.ltb_spec (currentPage (view_of (paginationState st) v))
                         (maxPage (view_of (paginationState st) v))) as [Hlt|Hge];
      [|apply Hok].
    rewrite set_page_view. destruct (decide (v = v')) as [<-|Hne]; [|apply Hok].
    destruct (Hok v) as [Hpos Hinv]. split; [done|].
    unfold page_inv, maxPage in *. cbn [currentPage itemsPerPage filteredData]. lia.
  - intros v'. unfold prevPage.
    destruct (Z.ltb_spec 1 (currentPage (view_of (paginationState st) v))) as [Hlt|Hge];
      [|apply Hok].
    rewrite set_page_view. destruct (decide (v = v')) as [<-|Hne]; [|apply Hok].
    destruct (Hok v) as [Hpos Hinv]. split; [done|].
    unfold page_inv, maxPage in *. cbn [currentPage itemsPerPage filteredData]. lia.
Qed.

(** C4: in each view 1 <= currentPage <= max(1, ceil(filteredData.length /
    itemsPerPage)) holds in the initial pagination state and is kept by a
    dataset load (failed or not), a search, a change of the page size to a
    positive size, a page forward and a page back; the page sizes stay
    positive. Hence it holds in every reachable state. *)
Theorem page_invariant :
  pagination_ok initial_pagination
  ∧ (∀ net st a,
       action_ok a →
       pagination_ok (paginationState st) →
       pagination_ok (paginationState (step net st a)))
  ∧ (∀ net st v,
       reachable net st →
       let s := view_of (paginationState st) v in
       1 ≤ currentPage s ≤ Z.max 1 (maxPage s)).
Proof.
  assert (Hinit : pagination_ok initial_pagination).
  { intros []; (split; [done | by apply page_inv_first]). }
  split_and!.
  - exact Hinit.
  - apply step_pagination_ok.
  - intros net st v Hreach. cbn zeta.
    enough (Hok : pagination_ok (paginationState st)) by apply Hok.
    induction Hreach as [st Hst|st a _ IH Ha].
    + by rewrite Hst.
    + by apply step_pagination_ok.
Qed.

Lemma page_invariant_witness :
  let net : Network := λ _, Some ("a" +:+ Str.nl +:+ "1" +:+ Str.nl +:+ "2") in
  let st := {| currentDataset := "field"; rawData := []; cleanedData := [];
               dataStats := calculateStats [] [];
               paginationState := initial_pagination |} in
  let st' := step net (step net (step net st (Load "sales"))
                         (ChangePageSize RawView 1)) (PageForward RawView) in
  currentPage (view_of (paginationState st') RawView) = 2
  ∧ 1 ≤ currentPage (view_of (paginationState st') RawView)
      ≤ Z.max 1 (maxPage (view_of (paginationState st') RawView)).
Proof.
  intros net st st'. split; [vm_compute; reflexivity|].
  destruct page_invariant as (_ & _ & Hreach).
  apply (Hreach net). subst st'.
  repeat (apply reach_step; [|simpl; try lia; exact I]).
  apply reach_init. reflexivity.
Defined.

(** * Further properties of the code *)

(** ** White space around a text and at the end of lines *)

Lemma trimStart_all_space (w : string) : all_space w = true → Str.trimStart w = "".
Proof.
  induction w as [|c w IH]; [done|]. simpl. intros [Hc Hw]%andb_true_iff.
  rewrite Hc. auto.
Qed.

Lemma trimEnd_all_space (w : string) : all_space w = true → Str.trimEnd w = "".
Proof.
  induction w as [|c w IH]; [done|]. simpl. intros [Hc Hw]%andb_true_iff.
  rewrite IH by done. by rewrite Hc.
Qed.

Lemma trimStart_space_app (w s : string) :
  all_space w = true → Str.trimStart (w +:+ s) = Str.trimStart s.
Proof.
  induction w as [|c w IH]; [done|]. rewrite append_cons. simpl.
  intros [Hc Hw]%andb_true_iff. rewrite Hc. auto.
Qed.

Lemma trimEnd_app_space (t w : string) :
  all_space w = true → Str.trimEnd (t +:+ w) = Str.trimEnd t.
Proof.
  intros Hw. induction t as [|c t IH].
  - by apply trimEnd_all_space.
  - rewrite append_cons. simpl. by rewrite IH.
Qed.

Lemma trimStart_app_space (s w : string) :
  all_space w = true →
  Str.trimStart (s +:+ w) = if all_space s then "" else Str.trimStart s +:+ w.
Proof.
  intros Hw. induction s as [|c s IH].
  - by apply trimStart_all_space.
  - rewrite append_cons. simpl. destruct (Str.is_space c); [done|].
    by rewrite append_cons.
Qed.

Lemma trim_app_space (s w : string) :
  all_space w = true → Str.trim (s +:+ w) = Str.trim s.
Proof.
  intros Hw. unfold Str.trim. rewrite trimStart_app_space by done.
  destruct (all_space s) eqn:Hs.
  - by rewrite trimStart_all_space.
  - by apply trimEnd_app_space.
Qed.

Lemma trim_space_app (w s : string) :
  all_space w = true → Str.trim (w +:+ s) = Str.trim s.
Proof. intros Hw. unfold Str.trim. by rewrite trimStart_space_app. Qed.

(** X1: white space before the header line and after the last line of a
    CSV text, such as a final line break, does not change the parse. *)
Theorem parseCSV_outer_space (before text after : string) :
  all_space before = true → all_space after = true →
  parseCSV (before +:+ text +:+ after) = parseCSV text.
Proof.
  intros Hb Ha. unfold parseCSV.
  by rewrite trim_space_app, trim_app_space.
Qed.

Lemma parseCSV_outer_space_witness :
  parseCSV (Str.nl +:+ "a,b" +:+ Str.nl +:+ "1,2" +:+ " " +:+ Str.nl)
  = parseCSV ("a,b" +:+ Str.nl +:+ "1,2").
Proof.
  apply (parseCSV_outer_space Str.nl ("a,b" +:+ Str.nl +:+ "1,2") (" " +:+ Str.nl));
    reflexivity.
Defined.

(** *** Trimming twice *)

Lemma trimStart_starts_clean (s : string) : starts_clean (Str.trimStart s).
Proof.
  induction s as [|c s IH]; [done|]. simpl.
  destruct (Str.is_space c) eqn:E; [done|]. simpl. done.
Qed.

Lemma trimStart_clean (s : string) : starts_clean s → Str.trimStart s = s.
Proof. destruct s as [|c s]; [done|]. simpl. by intros ->. Qed.

Lemma trimEnd_starts_clean (s : string) :
  starts_clean s → starts_clean (Str.trimEnd s).
Proof.
  destruct s as [|c s]; [done|]. simpl. intros Hc.
  destruct (Str.trimEnd s); rewrite ?Hc; done.
Qed.

Lemma trimEnd_idemp (s : string) : Str.trimEnd (Str.trimEnd s) = Str.trimEnd s.
Proof.
  induction s as [|c s IH]; [done|]. simpl.
  destruct (Str.trimEnd s) as [|d u] eqn:E.
  - destruct (Str.is_space c) eqn:Ec; [done|]. simpl. by rewrite Ec.
  - change (Str.trimEnd (String c (String d u)))
      with (match Str.trimEnd (String d u) with
            | EmptyString => if Str.is_space c then EmptyString else String c EmptyString
            | t => String c t
            end).
    by rewrite IH.
Qed.

Lemma trim_idemp (s : string) : Str.trim (Str.trim s) = Str.trim s.
Proof.
  unfold Str.trim. rewrite (trimStart_clean (Str.trimEnd _)).
  - apply trimEnd_idemp.
  - apply trimEnd_starts_clean, trimStart_starts_clean.
Qed.

(** X2: a cell of a parsed row is [null] or a string that is not empty, is
    not "null" and has no white space at either end. *)
Theorem parseCSV_cells_normal (text : string) (row : Row) (k s : string) :
  row ∈ parseCSV text → row !! k = Some (Some s) →
  s ≠ "" ∧ s ≠ "null" ∧ Str.trim s = s.
Proof.
  rewrite parseCSV_unfold. intros Hin Hk.
  apply list_elem_of_fmap in Hin as (line & -> & _).
  unfold row_of_line in Hk. apply fill_row_values in Hk as [f Hf].
  rewrite cell_of_spec in Hf. destruct (decide _) as [|Hn]; [done|].
  injection Hf as ->. split_and!; [tauto..|]. apply trim_idemp.
Qed.

Lemma parseCSV_cells_normal_witness :
  "x y" ≠ "" ∧ "x y" ≠ "null" ∧ Str.trim "x y" = "x y".
Proof.
  apply (parseCSV_cells_normal ("a" +:+ Str.nl +:+ "  x y ")
           {[ "a" := Some "x y" ]} "a" "x y").
  - vm_compute. apply list_elem_of_here.
  - vm_compute. reflexivity.
Defined.

(** *** White space at the end of lines *)

Lemma space_not_comma (c : ascii) :
  Str.is_space c = true → Ascii.eqb c Str.comma = false.
Proof. destruct (Ascii.eqb_spec c Str.comma) as [->|]; [discriminate | done]. Qed.

Lemma split_fields_all_space (w : string) :
  all_space w = true → Str.split_fields Str.comma w = (w, []).
Proof.
  induction w as [|c w IH]; [done|]. simpl. intros [Hc Hw]%andb_true_iff.
  rewrite IH by done. by rewrite space_not_comma.
Qed.

Lemma split_app_space (s w : string) :
  all_space w = true →
  Str.split Str.comma (s +:+ w) = map_last (λ f, f +:+ w) (Str.split Str.comma s).
Proof.
  intros Hw. unfold Str.split. induction s as [|c s IH].
  - change ("" +:+ w) with w. by rewrite split_fields_all_space.
  - rewrite append_cons. simpl.
    destruct (Str.split_fields Str.comma (s +:+ w)) as [f' fs'].
    destruct (Str.split_fields Str.comma s) as [f fs].
    destruct (Ascii.eqb c Str.comma).
    + change (map_last (λ f0, f0 +:+ w) ("" :: f :: fs))
        with ("" :: map_last (λ f0, f0 +:+ w) (f :: fs)).
      by rewrite <- IH.
    + destruct fs as [|x fs]; simpl in IH |- *.
      * injection IH as -> ->. by rewrite append_cons.
      * injection IH as -> ->. done.
Qed.

Lemma map_last_length {A} (g : A → A) (l : list A) :
  length (map_last g l) = length l.
Proof.
  induction l as [|x [|y l] IH]; [done..|].
  change (map_last g (x :: y :: l)) with (x :: map_last g (y :: l)).
  cbn [length]. f_equal. exact IH.
Qed.

Lemma map_last_fmap {A B} (g : A → A) (h : A → B) (l : list A) :
  (∀ x, h (g x) = h x) → h <$> map_last g l = h <$> l.
Proof.
  intros Hg. induction l as [|x [|y l] IH]; [done| |].
  - simpl. by rewrite Hg.
  - change (map_last g (x :: y :: l)) with (x :: map_last g (y :: l)).
    rewrite fmap_cons, IH. done.
Qed.

Lemma cell_of_app_space (f w : string) :
  all_space w = true → cell_of (f +:+ w) = cell_of f.
Proof. intros Hw. unfold cell_of. by rewrite trim_app_space. Qed.

Lemma fill_row_cells (headers values values' : list string) :
  cell_of <$> values = cell_of <$> values' →
  fill_row headers values = fill_row headers values'.
Proof.
  unfold fill_row. generalize fresh.
  revert values values'. induction headers as [|h hs IH]; intros vs vs' o H.
  - done.
  - destruct vs as [|v vs], vs' as [|v' vs']; try done.
    rewrite !fmap_cons in H. injection H as Hv Hvs. simpl.
    unfold put_cell at 2 4. simpl. rewrite Hv. by apply IH.
Qed.

Lemma row_of_line_app_space (headers : list string) (line w : string) :
  all_space w = true →
  row_of_line headers (line +:+ w) = row_of_line headers line
  ∧ arity_ok headers (line +:+ w) = arity_ok headers line.
Proof.
  intros Hw. unfold row_of_line, arity_ok. rewrite split_app_space by done.
  split.
  - apply fill_row_cells, map_last_fmap. intros f. by apply cell_of_app_space.
  - by rewrite map_last_length.
Qed.

Lemma parse_headers_app_space (line w : string) :
  all_space w = true → parse_headers (line +:+ w) = parse_headers line.
Proof.
  intros Hw. unfold parse_headers. rewrite split_app_space by done.
  apply (map_last_fmap _ (λ h, Str.toLowerCase (Str.trim h))).
  intros f. by rewrite trim_app_space.
Qed.

Lemma parse_lines_line_ends (headers lines lines' : list string) (data : list Row) :
  same_up_to_line_ends lines lines' →
  parse_lines headers lines' data = parse_lines headers lines data.
Proof.
  intros H. revert data. induction H as [|l l' ls ls' (w & Hw & ->) _ IH]; intros data.
  - done.
  - destruct (row_of_line_app_space headers l w Hw) as [Hrow Har].
    unfold row_of_line, arity_ok in Hrow, Har. simpl.
    rewrite Har, Hrow. case_match; apply IH.
Qed.

(** *** The CR LF form of a text *)

Lemma to_crlf_cons_other (c : ascii) (s : string) :
  Ascii.eqb c Str.newline = false → to_crlf (String c s) = String c (to_crlf s).
Proof. intros H. simpl. by rewrite H. Qed.

Lemma to_crlf_empty_iff (s : string) : to_crlf s = "" ↔ s = "".
Proof.
  destruct s as [|c s]; [done|]. simpl. destruct (Ascii.eqb c Str.newline); done.
Qed.

Lemma trimStart_to_crlf (s : string) :
  Str.trimStart (to_crlf s) = to_crlf (Str.trimStart s).
Proof.
  induction s as [|c s IH]; [done|].
  destruct (Ascii.eqb_spec c Str.newline) as [->|Hne].
  - simpl. done.
  - rewrite to_crlf_cons_other by (by apply Ascii.eqb_neq). simpl.
    destruct (Str.is_space c); [done|].
    by rewrite to_crlf_cons_other by (by apply Ascii.eqb_neq).
Qed.

Lemma trimEnd_cons (c : ascii) (s : string) :
  Str.trimEnd (String c s)
  = if String.eqb (Str.trimEnd s) ""
    then (if Str.is_space c then "" else String c "")
    else String c (Str.trimEnd s).
Proof. simpl. by destruct (Str.trimEnd s). Qed.

Lemma to_crlf_eqb_empty (s : string) :
  String.eqb (to_crlf s) "" = String.eqb s "".
Proof.
  destruct s as [|c s]; [done|]. simpl. destruct (Ascii.eqb c Str.newline); done.
Qed.

Lemma trimEnd_to_crlf (s : string) :
  Str.trimEnd (to_crlf s) = to_crlf (Str.trimEnd s).
Proof.
  induction s as [|c s IH]; [done|].
  destruct (Ascii.eqb_spec c Str.newline) as [->|Hne].
  - change (to_crlf (String Str.newline s))
      with (String carriage_return (String Str.newline (to_crlf s))).
    rewrite !trimEnd_cons, IH, to_crlf_eqb_empty.
    destruct (Str.trimEnd s) as [|d u]; done.
  - assert (Hc : Ascii.eqb c Str.newline = false) by (by apply Ascii.eqb_neq).
    rewrite to_crlf_cons_other by done.
    rewrite !trimEnd_cons, IH, to_crlf_eqb_empty.
    destruct (Str.trimEnd s) as [|d u].
    + simpl. destruct (Str.is_space c); [done|]. by rewrite to_crlf_cons_other.
    + simpl String.eqb. cbv iota. by rewrite (to_crlf_cons_other c).
Qed.

Lemma split_to_crlf (s : string) :
  same_up_to_line_ends (Str.split Str.newline s) (Str.split Str.newline (to_crlf s)).
Proof.
  unfold same_up_to_line_ends, Str.split. induction s as [|c s IH].
  - simpl. constructor; [|constructor]. by exists "".
  - destruct (Str.split_fields Str.newline s) as [f fs] eqn:E.
    destruct (Str.split_fields Str.newline (to_crlf s)) as [f' fs'] eqn:E'.
    destruct (Ascii.eqb_spec c Str.newline) as [->|Hne].
    + simpl. rewrite E, E'. simpl.
      constructor; [|done]. by exists (String carriage_return "").
    + assert (Hc : Ascii.eqb c Str.newline = false) by (by apply Ascii.eqb_neq).
      rewrite to_crlf_cons_other by done. simpl. rewrite E, E', Hc.
      apply Forall2_cons_1 in IH as [(w & Hw & ->) IH].
      constructor; [|done]. exists w. by rewrite append_cons.
Qed.

(** X3: a CSV text and its CR LF form (a carriage return before every
    line break, as written on Windows) parse to the same rows. *)
Theorem parseCSV_crlf (text : string) : parseCSV (to_crlf text) = parseCSV text.
Proof.
  unfold parseCSV, Str.trim.
  rewrite trimStart_to_crlf, trimEnd_to_crlf.
  pose proof (split_to_crlf (Str.trimEnd (Str.trimStart text))) as H.
  destruct H as [|l l' ls ls' (w & Hw & ->) Hrest]; [done|].
  rewrite parse_headers_app_space by done.
  by apply parse_lines_line_ends.
Qed.

(** ** Columns of the parsed rows *)

Lemma parsed_row_line (text : string) (row : Row) :
  row ∈ parseCSV text →
  ∃ line, row = row_of_line (csv_headers text) line
          ∧ length (Str.split Str.comma line) = length (csv_headers text).
Proof.
  rewrite parseCSV_unfold. intros Hin.
  apply list_elem_of_fmap in Hin as (line & -> & Hin).
  apply elem_of_List_filter in Hin as [_ Hok]. apply Nat.eqb_eq in Hok. eauto.
Qed.

Lemma parsed_row_dom (text : string) (row : Row) :
  row ∈ parseCSV text →
  dom row ⊆ list_to_set (csv_headers text)
  ∧ list_to_set (csv_headers text) ∖ {["__proto__"]} ⊆ dom row.
Proof.
  intros Hin. apply parsed_row_line in Hin as (line & -> & Hlen). split.
  - intros k Hk. apply elem_of_dom in Hk. apply elem_of_list_to_set.
    by apply (fill_row_keys _ (Str.split Str.comma line)).
  - intros k Hk. apply elem_of_difference in Hk as [Hk Hne].
    apply elem_of_list_to_set in Hk. apply elem_of_dom.
    apply fill_row_dom; [done| |done]. intros ->. apply Hne. by apply elem_of_singleton.
Qed.

Lemma parsed_row_dom_distinct (text : string) (row : Row) :
  row ∈ parseCSV text → NoDup (csv_headers text) →
  dom row = list_to_set (csv_headers text) ∖ {["__proto__"]}.
Proof.
  intros Hin Hnd. destruct (parsed_row_dom text row Hin) as [Hsub Hsup].
  apply set_eq. intros k. split; [|apply Hsup].
  intros Hk. apply elem_of_difference. split; [by apply Hsub|].
  intros Hp. apply elem_of_singleton in Hp as ->.
  apply parsed_row_line in Hin as (line & -> & Hlen).
  apply elem_of_dom in Hk as [c Hk]. unfold row_of_line in Hk.
  by rewrite fill_row_proto in Hk.
Qed.

(** X4: the columns of every parsed row are header names, and every header
    name other than [__proto__] is a column of every row. When no header is
    named [__proto__], all rows of the parse have the same columns, the set
    of header names, and with distinct header names as many cells as the
    header has fields. A header [__proto__] among distinct header names
    gives no column: every row has one cell fewer. When it occurs twice,
    rows of one parse can differ in their columns. *)
Theorem parseCSV_columns :
  (∀ text row,
     row ∈ parseCSV text →
     let headers := csv_headers text in
     dom row ⊆ list_to_set headers
     ∧ list_to_set headers ∖ {["__proto__"]} ⊆ dom row
     ∧ ("__proto__" ∉ headers →
        dom row = list_to_set headers
        ∧ (∀ row', row' ∈ parseCSV text → dom row' = dom row)
        ∧ (NoDup headers → size row = length headers))
     ∧ (NoDup headers → "__proto__" ∈ headers →
        dom row = list_to_set headers ∖ {["__proto__"]}
        ∧ (∀ row', row' ∈ parseCSV text → dom row' = dom row)
        ∧ S (size row) = length headers))
  ∧ parseCSV ("__proto__,a" +:+ Str.nl +:+ "x,2") = [ {[ "a" := Some "2" ]} ]
  ∧ parseCSV ("__proto__,__proto__" +:+ Str.nl +:+ ",x" +:+ Str.nl +:+ "y,z")
    = [ {[ "__proto__" := Some "x" ]}; ∅ ].
Proof.
  split_and!; [|vm_compute; reflexivity..].
  intros text row Hin headers.
  destruct (parsed_row_dom text row Hin) as [Hsub Hsup].
  refine (conj Hsub (conj Hsup (conj _ _))).
  - intros Hproto.
    assert (Hdom : ∀ r, r ∈ parseCSV text → dom r = list_to_set headers).
    { intros r Hr. destruct (parsed_row_dom text r Hr) as [Hs1 Hs2].
      apply set_eq. intros k. split; [apply Hs1|]. intros Hk. apply Hs2.
      apply elem_of_difference. split; [done|].
      intros Hp. apply elem_of_singleton in Hp as ->.
      by apply elem_of_list_to_set in Hk. }
    split_and!.
    + by apply Hdom.
    + intros row' Hin'. by rewrite !Hdom.
    + intros Hnd. rewrite <- size_dom, Hdom by done. by apply size_list_to_set.
  - intros Hnd Hproto. split_and!.
    + by apply parsed_row_dom_distinct.
    + intros row' Hin'. by rewrite !(parsed_row_dom_distinct text).
    + rewrite <- size_dom, (parsed_row_dom_distinct text) by done.
      rewrite <- (size_list_to_set (C := gset string) headers) by done.
      assert (Hone : ({["__proto__"]} : gset string) ⊆ list_to_set headers).
      { intros k Hk. apply elem_of_singleton in Hk as ->. by apply elem_of_list_to_set. }
      pose proof (size_union_alt ({["__proto__"]} : gset string) (list_to_set headers))
        as Hsize.
      rewrite size_singleton, (subseteq_union_1_L _ _ Hone) in Hsize.
      fold headers. rewrite Hsize. done.
Qed.

Lemma parseCSV_columns_witness :
  size ({[ "a" := Some "1"; "b" := None ]} : Row)
  = length (csv_headers ("a,b" +:+ Str.nl +:+ "1,"))
  ∧ S (size ({[ "a" := Some "2" ]} : Row))
    = length (csv_headers ("__proto__,a" +:+ Str.nl +:+ "x,2")).
Proof.
  assert (Hne : ∀ a b : string, a ≠ b → NoDup [a; b]).
  { intros a b Hab. apply NoDup_cons_2; [|apply NoDup_singleton].
    intros H. by apply list_elem_of_singleton in H. }
  split.
  - apply (proj1 parseCSV_columns ("a,b" +:+ Str.nl +:+ "1,")
             {[ "a" := Some "1"; "b" := None ]}).
    + vm_compute. apply list_elem_of_here.
    + vm_compute. intros H.
      repeat (apply elem_of_cons in H as [H|H]; [discriminate|]).
      by apply elem_of_nil in H.
    + vm_compute. by apply Hne.
  - apply (proj1 parseCSV_columns ("__proto__,a" +:+ Str.nl +:+ "x,2")
             {[ "a" := Some "2" ]}).
    + vm_compute. apply list_elem_of_here.
    + vm_compute. by apply Hne.
    + vm_compute. apply list_elem_of_here.
Defined.

(** ** Ranges of the quality figures *)

Lemma tenths_nonneg (x : Q) : (0 <= x)%Q → 0 ≤ tenths (toFixed1 x).
Proof.
  intros Hx. apply tenths_lower; [done|]. change (inject_Z 0) with 0%Q. lra.
Qed.

Lemma tenths_percent (a b : Z) :
  0 ≤ a ≤ b → 0 < b →
  0 ≤ tenths (toFixed1 (inject_Z a / inject_Z b * 100)%Q) ≤ 1000.
Proof.
  intros Ha Hb. pose proof (inject_Z_pos _ Hb) as Hbq.
  pose proof (ratio_nonneg a b (proj1 Ha) Hb) as Hx.
  split; [by apply tenths_nonneg|].
  enough (tenths (toFixed1 (inject_Z a / inject_Z b * 100)%Q) < 1001) by lia.
  apply tenths_upper; [done|].
  assert (H1 : (inject_Z a / inject_Z b <= 1)%Q).
  { apply Qle_shift_div_r; [done|]. rewrite Qmult_1_l, <- Zle_Qle. lia. }
  change (inject_Z 1001) with 1001%Q. lra.
Qed.

Lemma percent_nonneg (a b : Z) :
  0 ≤ a →
  (0 <= parseFloat (if 0 <? b
                    then Fix (toFixed1 (inject_Z a / inject_Z b * 100))
                    else Num 0))%Q.
Proof.
  intros Ha. destruct (Z.ltb_spec 0 b) as [Hb|Hb]; [|apply Qle_refl].
  unfold parseFloat. rewrite tenths_value.
  pose proof (tenths_nonneg _ (ratio_nonneg a b Ha Hb)).
  unfold Qle. simpl. lia.
Qed.

Lemma percent_le_100 (a b : Z) :
  0 ≤ a ≤ b →
  (parseFloat (if 0 <? b
               then Fix (toFixed1 (inject_Z a / inject_Z b * 100))
               else Num 0) <= 100)%Q.
Proof.
  intros Ha. destruct (Z.ltb_spec 0 b) as [Hb|Hb]; [|done].
  unfold parseFloat. rewrite tenths_value.
  pose proof (tenths_percent a b Ha Hb).
  unfold Qle. simpl. lia.
Qed.

Lemma sum_over_cells (rows : list Row) :
  (sum_over missing_cells rows + sum_over valid_cells rows)%nat = sum_over size rows.
Proof.
  induction rows as [|row rows IH]; [done|]. simpl.
  pose proof (cells_partition row). lia.
Qed.

(** X5: the raw-side completeness and validity always lie between 0 and
    100 and [missing] between 0 and [total]; [quality] is never negative,
    and with no more cleaned rows than raw rows [quality] and the raw-side
    consistency are at most 100 and [removed] is not negative. *)
Theorem calculateStats_ranges (rawRows cleanedRows : list Row) :
  let s := calculateStats rawRows cleanedRows in
  (0 <= completeness (raw s) <= 100)%Q
  ∧ (0 <= validity (raw s) <= 100)%Q
  ∧ 0 ≤ missing (raw s) ≤ total (raw s)
  ∧ missing (raw s) ≤ nulls (raw s)
  ∧ (0 <= numeric (quality s))%Q
  ∧ ((length cleanedRows ≤ length rawRows)%nat →
     (numeric (quality s) <= 100)%Q
     ∧ (consistency (raw s) <= 100)%Q
     ∧ 0 ≤ removed s).
Proof.
  intros s. subst s. unfold calculateStats, numeric. rewrite scan_raw_spec.
  cbn [raw missing nulls total completeness validity consistency quality removed
       rawMissing rawNulls totalFields validFields].
  pose proof (filter_length_le row_has_missing rawRows) as Hm.
  pose proof (missing_rows_le_nulls rawRows) as Hn.
  pose proof (sum_over_cells rawRows) as Hc.
  refine (conj (conj _ _) (conj (conj _ _) (conj _ (conj _ (conj _ _))))).
  - apply percent_nonneg. lia.
  - apply percent_le_100. lia.
  - apply percent_nonneg. lia.
  - apply percent_le_100. lia.
  - lia.
  - lia.
  - apply percent_nonneg. lia.
  - intros Hle. refine (conj _ (conj _ _)).
    + apply percent_le_100. lia.
    + apply percent_le_100. lia.
    + lia.
Qed.

Lemma calculateStats_ranges_witness :
  let s := calculateStats [ {[ "a" := Some "1" ]}; {[ "a" := None ]} ]
                          [ {[ "a" := Some "1" ]} ] in
  (numeric (quality s) <= 100)%Q ∧ 0 ≤ removed s.
Proof.
  intros s.
  destruct (calculateStats_ranges [ {[ "a" := Some "1" ]}; {[ "a" := None ]} ]
              [ {[ "a" := Some "1" ]} ]) as (_ & _ & _ & _ & _ & H).
  destruct H as (Hq & _ & Hr); [simpl; lia|]. split; [exact Hq | exact Hr].
Defined.

(** ** Raw data without nulls *)

Lemma filter_length_zero {A} (f : A → bool) (l : list A) :
  length (List.filter f l) = 0%nat ↔ existsb f l = false.
Proof.
  induction l as [|x l IH]; [done|]. simpl. destruct (f x); simpl; [done|apply IH].
Qed.

Lemma missing_cells_zero (row : Row) :
  missing_cells row = 0%nat ↔ ¬ has_missing row.
Proof.
  unfold missing_cells. rewrite filter_length_zero.
  rewrite <- row_has_missing_iff. unfold row_has_missing.
  by destruct (existsb _ _).
Qed.

Lemma sum_missing_zero (rows : list Row) :
  sum_over missing_cells rows = 0%nat ↔ ∀ row, row ∈ rows → ¬ has_missing row.
Proof.
  induction rows as [|row rows IH]; simpl.
  - split; [|done]. intros _ row Hin. by apply elem_of_nil in Hin.
  - rewrite Nat.eq_add_0, IH, missing_cells_zero. split.
    + intros [H1 H2] r Hin. apply elem_of_cons in Hin as [->|Hin]; auto.
    + intros H. split; [apply H; left | intros r Hin; apply H; by right].
Qed.

Lemma filter_missing_zero (rows : list Row) :
  length (List.filter row_has_missing rows) = 0%nat
  ↔ ∀ row, row ∈ rows → ¬ has_missing row.
Proof.
  rewrite filter_length_zero. induction rows as [|row rows IH]; simpl.
  - split; [|done]. intros _ row Hin. by apply elem_of_nil in Hin.
  - rewrite orb_false_iff, IH. split.
    + intros [H1 H2] r Hin. apply elem_of_cons in Hin as [->|Hin]; [|auto].
      rewrite <- row_has_missing_iff. by rewrite H1.
    + intros H. split; [|intros r Hin; apply H; by right].
      specialize (H row (list_elem_of_here _ _)).
      rewrite <- row_has_missing_iff in H. by destruct (row_has_missing row).
Qed.

Lemma full_percent (a : Z) :
  0 < a → toFixed1 (inject_Z a / inject_Z a * 100)%Q = Fixed1 1000.
Proof.
  intros Ha. pose proof (inject_Z_pos _ Ha) as Haq.
  assert (H1 : (inject_Z a / inject_Z a == 1)%Q).
  { apply Qmult_inv_r. intros H0. rewrite H0 in Haq. by apply Qlt_irrefl in Haq. }
  pose proof (ratio_nonneg a a (Z.lt_le_incl _ _ Ha) Ha) as Hx.
  set (x := (inject_Z a / inject_Z a * 100)%Q) in *.
  assert (Hlo : 1000 ≤ tenths (toFixed1 x)).
  { apply tenths_lower; [done|]. subst x. change (inject_Z 1000) with 1000%Q. lra. }
  assert (Hhi : tenths (toFixed1 x) < 1001).
  { apply tenths_upper; [done|]. subst x. change (inject_Z 1001) with 1001%Q. lra. }
  destruct (toFixed1 x) as [t]. simpl in *. f_equal. lia.
Qed.

(** X6: [missing] is 0 exactly when [nulls] is 0, exactly when no raw row
    has a null or empty field; then validity is 100 for a non-empty raw
    sequence and completeness is 100 when the raw rows have cells. *)
Theorem calculateStats_without_nulls (rawRows cleanedRows : list Row) :
  let s := calculateStats rawRows cleanedRows in
  (missing (raw s) = 0 ↔ nulls (raw s) = 0)
  ∧ (nulls (raw s) = 0 ↔ ∀ row, row ∈ rawRows → ¬ has_missing row)
  ∧ (nulls (raw s) = 0 → rawRows ≠ [] → (validity (raw s) == 100)%Q)
  ∧ (nulls (raw s) = 0 → (0 < sum_over size rawRows)%nat →
     (completeness (raw s) == 100)%Q).
Proof.
  intros s. subst s. unfold calculateStats. rewrite scan_raw_spec.
  cbn [raw missing nulls completeness validity
       rawMissing rawNulls totalFields validFields].
  pose proof (sum_missing_zero rawRows) as Hs.
  pose proof (filter_missing_zero rawRows) as Hf.
  pose proof (sum_over_cells rawRows) as Hc.
  assert (Hiff1 : Z.of_nat (length (List.filter row_has_missing rawRows)) = 0
                  ↔ Z.of_nat (sum_over missing_cells rawRows) = 0).
  { rewrite <- !Nat2Z.inj_0, !Nat2Z.inj_iff. by rewrite Hs, Hf. }
  assert (Hiff2 : Z.of_nat (sum_over missing_cells rawRows) = 0
                  ↔ ∀ row, row ∈ rawRows → ¬ has_missing row).
  { rewrite <- Nat2Z.inj_0, Nat2Z.inj_iff. exact Hs. }
  refine (conj Hiff1 (conj Hiff2 (conj _ _))).
  - intros Hn Hne. apply Hiff1 in Hn. rewrite Hn, Z.sub_0_r.
    assert (Hpos : 0 < Z.of_nat (length rawRows)).
    { destruct rawRows; [done | simpl length; lia]. }
    pose proof Hpos as Hb. apply Z.ltb_lt in Hb. rewrite Hb.
    rewrite full_percent by done. done.
  - intros Hn Hpos.
    assert (Hv : Z.of_nat (sum_over valid_cells rawRows)
                 = Z.of_nat (sum_over size rawRows)) by lia.
    rewrite Hv.
    assert (Hb : (0 <? Z.of_nat (sum_over size rawRows)) = true)
      by (apply Z.ltb_lt; lia).
    rewrite Hb, full_percent by lia. done.
Qed.

Lemma calculateStats_without_nulls_witness :
  let s := calculateStats [ {[ "a" := Some "1" ]}; {[ "a" := Some "2" ]} ] [] in
  (validity (raw s) == 100)%Q ∧ (completeness (raw s) == 100)%Q.
Proof.
  intros s.
  destruct (calculateStats_without_nulls
              [ {[ "a" := Some "1" ]}; {[ "a" := Some "2" ]} ] [])
    as (_ & _ & Hv & Hc).
  split.
  - apply Hv; [vm_compute; reflexivity | discriminate].
  - apply Hc; [vm_compute; reflexivity | vm_compute; lia].
Defined.

(** ** What a view action leaves alone *)

Lemma set_page_fields (v : view) (page : Z) (st : AppState) :
  currentDataset (set_page v page st) = currentDataset st
  ∧ rawData (set_page v page st) = rawData st
  ∧ cleanedData (set_page v page st) = cleanedData st
  ∧ dataStats (set_page v page st) = dataStats st.
Proof. done. Qed.

Lemma view_step_frame (net : Network) (st : AppState) (a : action) (v : view) :
  action_view a = Some v →
  let st' := step net st a in
  currentDataset st' = currentDataset st
  ∧ rawData st' = rawData st
  ∧ cleanedData st' = cleanedData st
  ∧ dataStats st' = dataStats st
  ∧ (∀ v', v' ≠ v →
       view_of (paginationState st') v' = view_of (paginationState st) v')
  ∧ ((∀ term, a ≠ Search v term) →
     filteredData (view_of (paginationState st') v)
     = filteredData (view_of (paginationState st) v))
  ∧ ((∀ n, a ≠ ChangePageSize v n) →
     itemsPerPage (view_of (paginationState st') v)
     = itemsPerPage (view_of (paginationState st) v)).
Proof.
  intros Ha st'. subst st'.
  destruct a as [datasetName|w term|w n|w|w]; simpl in Ha; [done|..];
    injection Ha as ->; cbn [step].
  - unfold search, filterData.
    split_and!; try done.
    + by destruct (String.eqb _ _).
    + by destruct (String.eqb _ _).
    + by destruct (String.eqb _ _).
    + by destruct (String.eqb _ _).
    + intros v' Hne. rewrite set_page_view, decide_False by done.
      destruct (String.eqb _ _); by rewrite set_filteredData_view, decide_False.
    + intros H. by destruct (H term).
    + intros _. rewrite set_page_view, decide_True by done. cbn [itemsPerPage].
      destruct (String.eqb _ _); by rewrite set_filteredData_view, decide_True.
  - unfold changeLimit. split_and!; try done.
    + intros v' Hne. rewrite set_page_view, decide_False by done.
      by rewrite set_itemsPerPage_view, decide_False.
    + intros _. rewrite set_page_view, decide_True by done. cbn [filteredData].
      by rewrite set_itemsPerPage_view, decide_True.
    + intros H. by destruct (H n).
  - unfold nextPage. case_match; [|done]. split_and!; try done.
    + intros v' Hne. by rewrite set_page_view, decide_False.
    + intros _. by rewrite set_page_view, decide_True.
    + intros _. by rewrite set_page_view, decide_True.
  - unfold prevPage. case_match; [|done]. split_and!; try done.
    + intros v' Hne. by rewrite set_page_view, decide_False.
    + intros _. by rewrite set_page_view, decide_True.
    + intros _. by rewrite set_page_view, decide_True.
Qed.

(** X7: a search, a page-size change and a page click on one view leave
    the dataset name, both row sequences, the statistics and the whole
    state of the other view as they are; a page click keeps the rows and
    the page size of its own view, a page-size change keeps its rows and a
    search keeps its page size. *)
Theorem view_action_frame (net : Network) (st : AppState) (a : action) (v : view) :
  action_view a = Some v →
  let st' := step net st a in
  currentDataset st' = currentDataset st
  ∧ rawData st' = rawData st
  ∧ cleanedData st' = cleanedData st
  ∧ dataStats st' = dataStats st
  ∧ (∀ v', v' ≠ v →
       view_of (paginationState st') v' = view_of (paginationState st) v')
  ∧ ((∀ term, a ≠ Search v term) →
     filteredData (view_of (paginationState st') v)
     = filteredData (view_of (paginationState st) v))
  ∧ ((∀ n, a ≠ ChangePageSize v n) →
     itemsPerPage (view_of (paginationState st') v)
     = itemsPerPage (view_of (paginationState st) v)).
Proof. by apply view_step_frame. Qed.

Lemma view_action_frame_witness :
  let rows : list Row := [ {[ "id" := Some "1" ]}; {[ "id" := Some "2" ]} ] in
  let st := {| currentDataset := "field"; rawData := rows; cleanedData := rows;
               dataStats := calculateStats rows rows;
               paginationState :=
                 {| pg_raw := {| currentPage := 1; itemsPerPage := 50;
                                 filteredData := rows |};
                    pg_cleaned := {| currentPage := 1; itemsPerPage := 50;
                                     filteredData := rows |} |} |} in
  let st' := step (λ _, None) st (Search RawView "2") in
  rawData st' = rows
  ∧ view_of (paginationState st') CleanedView = view_of (paginationState st) CleanedView.
Proof.
  intros rows st st'.
  destruct (view_action_frame (λ _, None) st (Search RawView "2") RawView eq_refl)
    as (_ & Hraw & _ & _ & Hother & _).
  split; [exact Hraw|]. apply Hother. discriminate.
Defined.

(** ** Searching again *)

Lemma filterData_depends (v : view) (t : string) (st st' : AppState) :
  currentDataset st' = currentDataset st →
  rawData st' = rawData st →
  cleanedData st' = cleanedData st →
  dataStats st' = dataStats st →
  (∀ v', v' ≠ v →
     view_of (paginationState st') v' = view_of (paginationState st) v') →
  itemsPerPage (view_of (paginationState st') v)
  = itemsPerPage (view_of (paginationState st) v) →
  filterData v t st' = filterData v t st.
Proof.
  destruct st as [d r c ds [pr pc]], st' as [d' r' c' ds' [pr' pc']].
  simpl. intros -> -> -> -> Hother Hsize.
  unfold filterData, set_page, set_filteredData, set_paginationState, sourceData.
  destruct v; simpl in *.
  - specialize (Hother CleanedView). simpl in Hother. rewrite Hother by done.
    rewrite Hsize. by destruct (String.eqb t "").
  - specialize (Hother RawView). simpl in Hother. rewrite Hother by done.
    rewrite Hsize. by destruct (String.eqb t "").
Qed.

(** X8: a search replaces whatever an earlier search or page click on the
    same view left: searching after any such action gives the same state as
    searching directly; so a search is idempotent, and an empty search
    after any search shows the whole source sequence again. *)
Theorem search_after_view_action (net : Network) (st : AppState) (a : action)
    (v : view) (term : string) :
  action_view a = Some v → (∀ n, a ≠ ChangePageSize v n) →
  search v term (step net st a) = search v term st
  ∧ search v term (search v term st) = search v term st
  ∧ filteredData (view_of (paginationState (search v "" (step net st a))) v)
    = sourceData v st.
Proof.
  intros Ha Hsize.
  destruct (view_step_frame net st a v Ha) as (Hd & Hr & Hc & Hs & Hother & _ & Hipp).
  assert (H1 : ∀ t, search v t (step net st a) = search v t st).
  { intros t. unfold search. apply filterData_depends; auto. }
  assert (H2 : ∀ t, search v t (search v t st) = search v t st).
  { intros t.
    destruct (view_step_frame net st (Search v t) v eq_refl)
      as (Hd' & Hr' & Hc' & Hs' & Hother' & _ & Hipp').
    unfold search at 1. apply filterData_depends; auto. }
  split_and!; [apply H1 | apply H2|].
  rewrite H1. unfold search. by rewrite filterData_view.
Qed.

Lemma search_after_view_action_witness :
  let rows : list Row := [ {[ "id" := Some "1" ]}; {[ "id" := Some "2" ]} ] in
  let st := {| currentDataset := "field"; rawData := rows; cleanedData := rows;
               dataStats := calculateStats rows rows;
               paginationState :=
                 {| pg_raw := {| currentPage := 1; itemsPerPage := 50;
                                 filteredData := rows |};
                    pg_cleaned := {| currentPage := 1; itemsPerPage := 50;
                                     filteredData := rows |} |} |} in
  filteredData (view_of (paginationState
                           (search RawView "" (step (λ _, None) st (Search RawView "2"))))
                        RawView) = rows.
Proof.
  intros rows st.
  apply (search_after_view_action (λ _, None) st (Search RawView "2") RawView "").
  - reflexivity.
  - intros n. discriminate.
Defined.

(** ** Loads *)

Lemma catalog_names (datasetName : string) (dataset : Dataset) :
  DATASETS !! datasetName = Some dataset →
  datasetName ∈ ["field"; "manufacturing"; "sales"; "testing"].
Proof.
  intros H. unfold DATASETS in H.
  repeat (apply lookup_insert_Some in H as [[<- _]|[_ H]]; [set_solver|]).
  apply lookup_singleton_Some in H as [<- _]. set_solver.
Qed.

Lemma catalog_names_iff (datasetName : string) :
  is_Some (DATASETS !! datasetName)
  ↔ datasetName ∈ ["field"; "manufacturing"; "sales"; "testing"].
Proof.
  split.
  - intros [dataset H]. by apply catalog_names in H.
  - intros H. repeat (apply elem_of_cons in H as [->|H]; [by eexists|]).
    by apply elem_of_nil in H.
Qed.

Lemma inherited_not_entry (datasetName : string) :
  datasetName ∈ Object_prototype_names → DATASETS !! datasetName = None.
Proof.
  intros H. unfold Object_prototype_names in H.
  repeat (apply elem_of_cons in H as [->|H]; [vm_compute; reflexivity|]).
  by apply elem_of_nil in H.
Qed.

(** A load that reads [rawText] and [cleanedText]: what it installs. *)
Lemma loadDataset_installs (net : Network) (datasetName : string) (st : AppState)
    (raw cleaned rawText cleanedText : string) :
  paths_of datasetName = Some (raw, cleaned) →
  net raw = Some rawText → net cleaned = Some cleanedText →
  let st' := (loadDataset net datasetName st).1 in
  (loadDataset net datasetName st).2 = Loaded
  ∧ rawData st' = parseCSV rawText
  ∧ cleanedData st' = parseCSV cleanedText
  ∧ dataStats st' = calculateStats (parseCSV rawText) (parseCSV cleanedText)
  ∧ ∀ v, view_of (paginationState st') v
         = {| currentPage := 1;
              itemsPerPage := itemsPerPage (view_of (paginationState st) v);
              filteredData := sourceData v st' |}.
Proof.
  intros Hp Hr Hc st'. subst st'. rewrite loadDataset_cases, Hp, Hr, Hc.
  split_and!; try done. by intros [].
Qed.

Lemma loadDataset_fails (net : Network) (datasetName : string) (st : AppState) :
  (loadDataset net datasetName st).2 = LoadFailed ↔
  match paths_of datasetName with
  | None => True
  | Some (raw, cleaned) => net raw = None ∨ net cleaned = None
  end.
Proof.
  rewrite loadDataset_cases.
  destruct (paths_of datasetName) as [[raw cleaned]|]; [|done].
  destruct (net raw) as [rawText|]; [|by split; auto].
  destruct (net cleaned) as [cleanedText|]; [|by split; auto].
  split; [done|]. by intros [|].
Qed.

(** X9: the outcome of a load that runs on its own. The requested name
    becomes [currentDataset] whatever happens. For one of the four names of
    the catalog the load succeeds exactly when both of its files are
    answered; it then installs the two parses, their statistics, and in
    both views the full new rows on page 1 with the page size kept. A name
    that [DATASETS] only inherits from [Object.prototype] ("constructor",
    "toString", ...) raises no error: the load fetches the path "undefined"
    twice, and succeeds exactly when that is answered. For every other
    name the load fails and leaves the rows, the statistics and the
    pagination state as they were. *)
Theorem loadDataset_outcome (net : Network) (datasetName : string) (st : AppState) :
  let st' := (loadDataset net datasetName st).1 in
  let outcome := (loadDataset net datasetName st).2 in
  let installs rawText cleanedText :=
    rawData st' = parseCSV rawText
    ∧ cleanedData st' = parseCSV cleanedText
    ∧ dataStats st' = calculateStats (parseCSV rawText) (parseCSV cleanedText)
    ∧ ∀ v, view_of (paginationState st') v
           = {| currentPage := 1;
                itemsPerPage := itemsPerPage (view_of (paginationState st) v);
                filteredData := sourceData v st' |} in
  currentDataset st' = datasetName
  ∧ (is_Some (DATASETS !! datasetName)
     ↔ datasetName ∈ ["field"; "manufacturing"; "sales"; "testing"])
  ∧ (∀ dataset,
       DATASETS !! datasetName = Some dataset →
       (outcome = Loaded
        ↔ is_Some (net (rawPath dataset)) ∧ is_Some (net (cleanedPath dataset)))
       ∧ ∀ rawText cleanedText,
           net (rawPath dataset) = Some rawText →
           net (cleanedPath dataset) = Some cleanedText →
           installs rawText cleanedText)
  ∧ (datasetName ∈ Object_prototype_names →
       (outcome = Loaded ↔ is_Some (net "undefined"))
       ∧ ∀ text, net "undefined" = Some text → installs text text)
  ∧ (DATASETS !! datasetName = None →
     datasetName ∉ Object_prototype_names →
       outcome = LoadFailed
       ∧ rawData st' = rawData st
       ∧ cleanedData st' = cleanedData st
       ∧ dataStats st' = dataStats st
       ∧ paginationState st' = paginationState st).
Proof.
  intros st' outcome installs.
  assert (Hloaded : ∀ raw cleaned,
            paths_of datasetName = Some (raw, cleaned) →
            (outcome = Loaded ↔ is_Some (net raw) ∧ is_Some (net cleaned))
            ∧ ∀ rawText cleanedText,
                net raw = Some rawText → net cleaned = Some cleanedText →
                installs rawText cleanedText).
  { intros raw cleaned Hp. split.
    - pose proof (loadDataset_fails net datasetName st) as Hf. rewrite Hp in Hf.
      fold outcome in Hf. split.
      + intros Ho. destruct (net raw) as [rawText|]; [|destruct Hf as [_ Hf]].
        * destruct (net cleaned) as [cleanedText|]; [by split|destruct Hf as [_ Hf]].
          rewrite Hf in Ho by auto. done.
        * rewrite Hf in Ho by auto. done.
      + intros [[rawText Hr] [cleanedText Hc]].
        by destruct (loadDataset_installs net datasetName st _ _ _ _ Hp Hr Hc) as [? _].
    - intros rawText cleanedText Hr Hc.
      by destruct (loadDataset_installs net datasetName st _ _ _ _ Hp Hr Hc) as [_ ?]. }
  split_and!.
  - subst st'. rewrite loadDataset_cases.
    destruct (paths_of datasetName) as [[raw cleaned]|]; [|done].
    destruct (net raw) as [rawText|]; [|done].
    destruct (net cleaned) as [cleanedText|]; done.
  - apply catalog_names_iff.
  - intros dataset Hd. apply Hloaded. by apply paths_of_entry.
  - intros Hin.
    assert (Hp : paths_of datasetName = Some ("undefined", "undefined")).
    { unfold paths_of. rewrite inherited_not_entry by done. by rewrite bool_decide_true. }
    destruct (Hloaded _ _ Hp) as [Hiff Hinst]. split.
    + rewrite Hiff. tauto.
    + intros text Ht. by apply Hinst.
  - intros Hd Hnot. subst st' outcome. rewrite loadDataset_cases.
    unfold paths_of. rewrite Hd, bool_decide_false by done. done.
Qed.

Lemma loadDataset_outcome_witness :
  let net : Network := λ _, Some ("a" +:+ Str.nl +:+ "1" +:+ Str.nl +:+ "2") in
  let st := {| currentDataset := "field"; rawData := []; cleanedData := [];
               dataStats := calculateStats [] [];
               paginationState := initial_pagination |} in
  (loadDataset net "sales" st).2 = Loaded
  ∧ rawData (loadDataset net "sales" st).1 = [ {[ "a" := Some "1" ]}; {[ "a" := Some "2" ]} ]
  ∧ (loadDataset net "constructor" st).2 = Loaded
  ∧ (loadDataset net "nowhere" st).2 = LoadFailed.
Proof.
  intros net st.
  destruct (loadDataset_outcome net "sales" st) as (_ & _ & Hok & _).
  destruct (loadDataset_outcome net "constructor" st) as (_ & _ & _ & Hproto & _).
  destruct (loadDataset_outcome net "nowhere" st) as (_ & _ & _ & _ & Hbad).
  assert (Hsales : DATASETS !! "sales"
                   = Some {| name := "Sales Data"; icon := "fa-shopping-cart";
                             rawPath := "data/raw/sales.csv";
                             cleanedPath := "data/cleaned/cleaned_sales.csv";
                             description := "Sales transactions and customer data" |})
    by (vm_compute; reflexivity).
  destruct (Hok _ Hsales) as [Hiff Hinst].
  split_and!.
  - apply Hiff. split; by eexists.
  - edestruct Hinst as (Hraw & _); [reflexivity..|]. rewrite Hraw.
    vm_compute. reflexivity.
  - apply Hproto; [|by eexists]. unfold Object_prototype_names. apply list_elem_of_here.
  - apply Hbad; [vm_compute; reflexivity|]. unfold Object_prototype_names. intros H.
    repeat (apply elem_of_cons in H as [H|H]; [discriminate|]).
    by apply elem_of_nil in H.
Defined.

(** ** The views and their source rows *)

Lemma search_in_source (v : view) (term : string) (st : AppState) :
  filteredData (view_of (paginationState (search v term st)) v)
  `sublist_of` sourceData v st.
Proof.
  unfold search. rewrite filterData_view. cbn [filteredData].
  destruct (String.eqb _ _); [done | apply List_filter_sublist].
Qed.

Lemma sourceData_frame (v : view) (st st' : AppState) :
  rawData st' = rawData st → cleanedData st' = cleanedData st →
  sourceData v st' = sourceData v st.
Proof. intros Hr Hc. destruct v; done. Qed.

(** X10: the rows a view shows are always rows of its source sequence, in
    source order, after every search, page-size change, page click and
    load, unless the load fails after the raw file was read: then the raw
    view keeps showing rows of the replaced sequence. *)
Theorem views_stay_in_source (net : Network) (st : AppState) (a : action) :
  views_in_source st →
  (∀ datasetName, a = Load datasetName →
     (loadDataset net datasetName st).2 = Loaded
     ∨ rawData (loadDataset net datasetName st).1 = rawData st) →
  views_in_source (step net st a).
Proof.
  intros Hin Hload. destruct (action_view a) as [v|] eqn:Ha.
  - destruct (view_step_frame net st a v Ha) as (_ & Hr & Hc & _ & Hother & Hrows & _).
    intros v'. rewrite (sourceData_frame v' _ _ Hr Hc).
    destruct (decide (v' = v)) as [->|Hne]; [|rewrite Hother by done; apply Hin].
    destruct a as [n|w term|w n|w|w]; simpl in Ha; simplify_eq.
    + cbn [step]. apply search_in_source.
    + rewrite Hrows by (intros; discriminate). apply Hin.
    + rewrite Hrows by (intros; discriminate). apply Hin.
    + rewrite Hrows by (intros; discriminate). apply Hin.
  - destruct a as [datasetName| | | |]; try done. cbn [step].
    specialize (Hload datasetName eq_refl). revert Hload.
    rewrite loadDataset_cases.
    destruct (paths_of datasetName) as [[raw cleaned]|]; [|intros _; apply Hin].
    destruct (net raw) as [rawText|]; [|intros _; apply Hin].
    destruct (net cleaned) as [cleanedText|].
    + intros _ []; done.
    + intros [|Hraw]; [done|]. intros v. cbn zeta. cbn [fst].
      rewrite (sourceData_frame v st
                 (set_rawData (parseCSV rawText) (set_currentDataset datasetName st)))
        by done.
      apply Hin.
Qed.

Lemma views_stay_in_source_witness :
  let rows : list Row := [ {[ "id" := Some "1" ]}; {[ "id" := Some "2" ]} ] in
  let st := {| currentDataset := "field"; rawData := rows; cleanedData := rows;
               dataStats := calculateStats rows rows;
               paginationState :=
                 {| pg_raw := {| currentPage := 1; itemsPerPage := 50;
                                 filteredData := rows |};
                    pg_cleaned := {| currentPage := 1; itemsPerPage := 50;
                                     filteredData := rows |} |} |} in
  views_in_source (step (λ _, None) st (Load "sales")).
Proof.
  intros rows st. apply views_stay_in_source.
  - intros []; simpl; reflexivity.
  - intros datasetName H. injection H as <-. right. vm_compute. reflexivity.
Defined.

(** ** Pages of a table *)

Lemma Array_slice_window {A} (data : list A) (start n : Z) :
  0 ≤ start → 0 ≤ n →
  Array_slice data start (start + n)
  = take (Z.to_nat n) (drop (Z.to_nat start) data).
Proof.
  intros Hs Hn. unfold Array_slice.
  assert (E1 : (start <? 0) = false) by (apply Z.ltb_ge; lia).
  assert (E2 : (start + n <? 0) = false) by (apply Z.ltb_ge; lia).
  rewrite E1, E2.
  destruct (Z.le_gt_cases start (Z.of_nat (length data))) as [Hle|Hgt].
  - rewrite (Z.min_l start) by lia.
    destruct (Z.le_gt_cases (start + n) (Z.of_nat (length data))) as [Hle2|Hgt2].
    + rewrite Z.min_l by lia. f_equal. lia.
    + rewrite Z.min_r by lia.
      rewrite !take_ge by (rewrite length_drop; lia). done.
  - rewrite !Z.min_r by lia. rewrite Z.sub_diag.
    rewrite !drop_ge by lia. by rewrite !take_nil.
Qed.

Lemma pageData_window (s : ViewState) (page : Z) :
  0 < itemsPerPage s → 1 ≤ page →
  pageData s page
  = take (Z.to_nat (itemsPerPage s))
         (drop (Z.to_nat (page - 1) * Z.to_nat (itemsPerPage s)) (filteredData s)).
Proof.
  intros Hn Hp. unfold pageData. rewrite Array_slice_window by nia.
  do 2 f_equal. rewrite Z2Nat.inj_mul by lia. done.
Qed.

Lemma chunks_concat {A} (n m : nat) (l : list A) :
  (0 < n)%nat → (length l ≤ m * n)%nat →
  concat ((λ i, take n (drop (i * n) l)) <$> seq 0 m) = l.
Proof.
  intros Hn. revert l. induction m as [|m IH]; intros l Hl.
  - destruct l; [done | simpl in Hl; lia].
  - rewrite <- cons_seq, fmap_cons, concat_cons. simpl drop.
    rewrite <- fmap_S_seq, <- list_fmap_compose.
    etrans; [|apply (take_drop n l)]. f_equal.
    rewrite <- (IH (drop n l)) by (rewrite length_drop; lia).
    f_equal. apply list_fmap_ext. intros _ i _. simpl. by rewrite drop_drop.
Qed.

(** X11: the pages 1 to [maxPage] of a view, as [renderTable] cuts them,
    put one after the other are exactly [filteredData]: every row is on one
    page, in order, and no row is shown twice. *)
Theorem pages_partition (s : ViewState) :
  0 < itemsPerPage s →
  concat (pageData s <$> seqZ 1 (maxPage s)) = filteredData s.
Proof.
  intros Hn. destruct (maxPage_ceiling s Hn) as [Hup Hlo].
  assert (Hm : 0 ≤ maxPage s) by nia.
  unfold seqZ. rewrite <- list_fmap_compose.
  etrans; [|apply (chunks_concat (Z.to_nat (itemsPerPage s)) (Z.to_nat (maxPage s)));
            nia].
  f_equal. apply list_fmap_ext. intros _ i _. simpl.
  rewrite pageData_window by lia. do 3 f_equal. lia.
Qed.

Lemma pages_partition_witness :
  let row id : Row := {[ "id" := Some id ]} in
  let s := {| currentPage := 1; itemsPerPage := 2;
              filteredData := [row "1"; row "2"; row "3"; row "4"; row "5"] |} in
  concat (pageData s <$> seqZ 1 (maxPage s)) = filteredData s.
Proof. intros row s. apply (pages_partition s). simpl. lia. Defined.

(** X12: with a positive page size, a page from 1 to [maxPage] shows at
    least one row and at most [itemsPerPage] rows, exactly [itemsPerPage]
    on every page before the last, and a page after [maxPage] shows
    none. *)
Theorem pageData_length (s : ViewState) (page : Z) :
  0 < itemsPerPage s → 1 ≤ page →
  let len := Z.of_nat (length (filteredData s)) in
  let shown := Z.of_nat (length (pageData s page)) in
  shown = Z.max 0 (Z.min (itemsPerPage s) (len - (page - 1) * itemsPerPage s))
  ∧ (page ≤ maxPage s → 1 ≤ shown ≤ itemsPerPage s)
  ∧ (page < maxPage s → shown = itemsPerPage s)
  ∧ (maxPage s < page → pageData s page = []).
Proof.
  intros Hn Hp len shown. destruct (maxPage_ceiling s Hn) as [Hup Hlo].
  fold len in Hup, Hlo.
  assert (Hshown : shown = Z.max 0 (Z.min (itemsPerPage s)
                                      (len - (page - 1) * itemsPerPage s))).
  { subst shown len. rewrite pageData_window by done.
    rewrite length_take, length_drop. nia. }
  split_and!.
  - done.
  - intros Hle. rewrite Hshown. nia.
  - intros Hlt. rewrite Hshown. nia.
  - intros Hgt. apply length_zero_iff_nil.
    enough (shown = 0) by (subst shown; lia). rewrite Hshown. nia.
Qed.

Lemma pageData_length_witness :
  let row id : Row := {[ "id" := Some id ]} in
  let s := {| currentPage := 1; itemsPerPage := 2;
              filteredData := [row "1"; row "2"; row "3"; row "4"; row "5"] |} in
  Z.of_nat (length (pageData s 3)) = 1 ∧ pageData s 4 = [].
Proof.
  intros row s.
  assert (Hn : 0 < itemsPerPage s) by (simpl; lia).
  destruct (pageData_length s 3 Hn ltac:(lia)) as (H3 & _).
  destruct (pageData_length s 4 Hn ltac:(lia)) as (_ & _ & _ & H4).
  split; [rewrite H3; vm_compute; reflexivity|].
  apply H4. vm_compute. reflexivity.
Defined.

(** ** What the page shows *)

Lemma ui_of_set_ui (ui : PageUI) (v v' : view) (x : ViewUI) :
  ui_of (set_ui ui v x) v' = if decide (v = v') then x else ui_of ui v'.
Proof. destruct v, v'; done. Qed.

Lemma renderTable_other (v v' : view) (page : Z) (st : AppState) (ui : PageUI) :
  v ≠ v' → ui_of (renderTable v page st ui) v' = ui_of ui v'.
Proof.
  intros Hne. unfold renderTable, updatePaginationInfo, set_body.
  destruct (Nat.eqb _ _); rewrite !ui_of_set_ui, ?decide_False by done; done.
Qed.

Lemma renderTable_same (v : view) (page : Z) (st : AppState) (ui : PageUI) :
  let s := view_of (paginationState st) v in
  ui_of (renderTable v page st ui) v
  = match filteredData s with
    | [] => {| body := NoDataRow;
               page_info := page_info (ui_of ui v);
               prev_disabled := prev_disabled (ui_of ui v);
               next_disabled := next_disabled (ui_of ui v) |}
    | _ => {| body := DataRows (pageData s page);
              page_info := page_text (currentPage s) (maxPage s);
              prev_disabled := currentPage s =? 1;
              next_disabled := currentPage s =? maxPage s |}
    end.
Proof.
  intros s. unfold renderTable, updatePaginationInfo, set_body. fold s.
  destruct (filteredData s) as [|row rows]; simpl Nat.eqb; cbv iota;
    rewrite !ui_of_set_ui, !decide_True by done; done.
Qed.

Lemma renderTable_shows (v : view) (page : Z) (st : AppState) (ui : PageUI) :
  currentPage (view_of (paginationState st) v) = page →
  shows_view (view_of (paginationState st) v) (ui_of (renderTable v page st ui) v).
Proof.
  intros <-. rewrite renderTable_same. unfold shows_view, body_of.
  destruct (filteredData _); simpl; split; done.
Qed.

Lemma step_ui_state (net : Network) (w : AppState * PageUI) (a : action) :
  (step_ui net w a).1 = step net w.1 a.
Proof.
  destruct w as [st ui], a as [name|v term|v n|v|v]; simpl.
  - unfold on_load. simpl. by destruct (loadDataset net name st) as [st' []].
  - done.
  - done.
  - unfold on_next, nextPage. simpl. by case_match.
  - unfold on_prev, prevPage. simpl. by case_match.
Qed.

Lemma shows_after_render (v : view) (page : Z) (st st' : AppState) (ui : PageUI) :
  shows st ui →
  (∀ v', v' ≠ v →
     view_of (paginationState st') v' = view_of (paginationState st) v') →
  currentPage (view_of (paginationState st') v) = page →
  shows st' (renderTable v page st' ui).
Proof.
  intros Hs Hother Hpage v'. destruct (decide (v' = v)) as [->|Hne].
  - by apply renderTable_shows.
  - rewrite renderTable_other by done. rewrite Hother by done. apply Hs.
Qed.

Lemma load_result_pagination (net : Network) (name : string) (st st' : AppState)
    (outcome : LoadOutcome) :
  loadDataset net name st = (st', outcome) →
  match outcome with
  | Loaded => ∀ v, currentPage (view_of (paginationState st') v) = 1
  | LoadFailed => paginationState st' = paginationState st
  end.
Proof.
  rewrite loadDataset_cases.
  destruct (paths_of name) as [[raw cleaned]|]; [|by intros [= <- <-]].
  destruct (net raw) as [rawText|]; [|by intros [= <- <-]].
  destruct (net cleaned) as [cleanedText|]; intros [= <- <-]; [|done].
  by intros [].
Qed.

Lemma step_ui_shows (net : Network) (w : AppState * PageUI) (a : action) :
  shows w.1 w.2 → shows (step_ui net w a).1 (step_ui net w a).2.
Proof.
  destruct w as [st ui]. simpl. intros Hs.
  destruct a as [name|v term|v n|v|v]; cbn [step_ui].
  - unfold on_load. cbn [fst snd].
    destruct (loadDataset net name st) as [st' outcome] eqn:E.
    apply load_result_pagination in E. destruct outcome; cbn [fst snd].
    + intros v. destruct v.
      * rewrite renderTable_other by done. by apply renderTable_shows.
      * by apply renderTable_shows.
    + intros v. unfold shows in Hs. rewrite E. apply Hs.
  - unfold on_search. cbn [fst snd].
    pose proof (view_step_frame net st (Search v term) v eq_refl)
      as (_ & _ & _ & _ & Hother & _).
    apply (shows_after_render v 1 st); [done | apply Hother|].
    unfold search. by rewrite filterData_view.
  - unfold on_limit. cbn [fst snd].
    pose proof (view_step_frame net st (ChangePageSize v n) v eq_refl)
      as (_ & _ & _ & _ & Hother & _).
    apply (shows_after_render v 1 st); [done | apply Hother|].
    unfold changeLimit. by rewrite set_page_view, decide_True.
  - unfold on_next. cbn [fst snd]. case_match; [|done]. cbn [fst snd].
    apply (shows_after_render v _ st); [done | | done].
    intros v' Hne. by rewrite set_page_view, decide_False.
  - unfold on_prev. cbn [fst snd]. case_match; [|done]. cbn [fst snd].
    apply (shows_after_render v _ st); [done | | done].
    intros v' Hne. by rewrite set_page_view, decide_False.
Qed.

Lemma initializeDataTables_shows (st : AppState) (ui : PageUI) :
  shows st (initializeDataTables st ui).
Proof.
  intros v. unfold initializeDataTables. destruct v.
  - rewrite renderTable_other by done. by apply renderTable_shows.
  - by apply renderTable_shows.
Qed.

Lemma reachable_ui_shows (net : Network) (w : AppState * PageUI) :
  reachable_ui net w → shows w.1 w.2 ∧ pagination_ok (paginationState w.1).
Proof.
  induction 1 as [st ui Hst|w a _ [IHs IHp] Ha].
  - split; [apply initializeDataTables_shows|]. simpl. rewrite Hst.
    intros []; (split; [done | by apply page_inv_first]).
  - split; [by apply step_ui_shows|].
    rewrite step_ui_state. by apply step_pagination_ok.
Qed.

(** X13: what is drawn follows the state. After the start-up drawing and
    after every load, search, page-size change and page click, each table
    body holds one row for each item of the current page of its view's
    [filteredData], in order (the "no data" row when [filteredData] is
    empty), and over a non-empty table the page-info text and the button
    flags are those of [currentPage] and [maxPage]; the drawing listeners
    change the state as [step] does. *)
Theorem page_shows_state :
  (∀ st ui, shows st (initializeDataTables st ui))
  ∧ (∀ net w a,
       (step_ui net w a).1 = step net w.1 a
       ∧ (shows w.1 w.2 → shows (step_ui net w a).1 (step_ui net w a).2))
  ∧ (∀ net w, reachable_ui net w → shows w.1 w.2).
Proof.
  split_and!.
  - apply initializeDataTables_shows.
  - intros net w a. split; [apply step_ui_state | apply step_ui_shows].
  - intros net w H. exact (proj1 (reachable_ui_shows net w H)).
Qed.

Lemma page_shows_state_witness :
  let net : Network := λ _, Some ("a" +:+ Str.nl +:+ "1" +:+ Str.nl +:+ "null") in
  let st := {| currentDataset := "field"; rawData := []; cleanedData := [];
               dataStats := calculateStats [] [];
               paginationState := initial_pagination |} in
  let blank := {| body := NoDataRow; page_info := ""; prev_disabled := false;
                  next_disabled := false |} in
  let ui := {| ui_raw := blank; ui_cleaned := blank |} in
  let w := step_ui net (st, initializeDataTables st ui) (Load "sales") in
  shows w.1 w.2
  ∧ body (ui_of w.2 RawView) = DataRows [ {[ "a" := Some "1" ]}; {[ "a" := None ]} ].
Proof.
  intros net st blank ui w. split; [|vm_compute; reflexivity].
  destruct page_shows_state as (_ & _ & Hreach). apply (Hreach net).
  subst w. apply reach_ui_step; [|exact I]. by apply reach_ui_init.
Defined.

(** *** Page buttons *)

Lemma nextPage_same_iff (v : view) (st : AppState) :
  let s := view_of (paginationState st) v in
  nextPage v st = st ↔ ¬ currentPage s < maxPage s.
Proof.
  intros s. unfold nextPage. fold s.
  destruct (Z.ltb_spec (currentPage s) (maxPage s)) as [Hlt|Hge].
  - split; [|lia]. intros H. rewrite <- (set_page_same v st) in H at 2.
    apply set_page_inj in H. fold s in H. lia.
  - split; [lia | done].
Qed.

Lemma prevPage_same_iff (v : view) (st : AppState) :
  let s := view_of (paginationState st) v in
  prevPage v st = st ↔ ¬ 1 < currentPage s.
Proof.
  intros s. unfold prevPage. fold s.
  destruct (Z.ltb_spec 1 (currentPage s)) as [Hlt|Hge].
  - split; [|lia]. intros H. rewrite <- (set_page_same v st) in H at 2.
    apply set_page_inj in H. fold s in H. lia.
  - split; [lia | done].
Qed.

(** X14: over a non-empty table a page button is drawn disabled exactly
    when clicking it would change nothing: in every reachable state the
    next button is disabled iff the next-page listener returns the state
    unchanged, and likewise the previous button. *)
Theorem disabled_buttons_are_dead (net : Network) (w : AppState * PageUI) (v : view) :
  reachable_ui net w →
  filteredData (view_of (paginationState w.1) v) ≠ [] →
  (next_disabled (ui_of w.2 v) = true ↔ nextPage v w.1 = w.1)
  ∧ (prev_disabled (ui_of w.2 v) = true ↔ prevPage v w.1 = w.1)
  ∧ (next_disabled (ui_of w.2 v) = true → on_next v w = w)
  ∧ (prev_disabled (ui_of w.2 v) = true → on_prev v w = w).
Proof.
  intros Hreach Hne. apply reachable_ui_shows in Hreach as [Hs Hok].
  destruct (Hs v) as [_ Hinfo]. destruct (Hinfo Hne) as (_ & Hprev & Hnext).
  destruct (Hok v) as [Hpos Hinv].
  set (s := view_of (paginationState w.1) v) in *.
  destruct (maxPage_ceiling s Hpos) as [Hup _].
  assert (Hlen : 0 < Z.of_nat (length (filteredData s))).
  { destruct (filteredData s); [done | simpl length; lia]. }
  assert (Hmax : 1 ≤ maxPage s) by nia.
  unfold page_inv in Hinv.
  assert (Hn : next_disabled (ui_of w.2 v) = true ↔ ¬ currentPage s < maxPage s).
  { rewrite Hnext, Z.eqb_eq. lia. }
  assert (Hp : prev_disabled (ui_of w.2 v) = true ↔ ¬ 1 < currentPage s).
  { rewrite Hprev, Z.eqb_eq. lia. }
  refine (conj _ (conj _ (conj _ _))).
  - rewrite Hn. symmetry. apply nextPage_same_iff.
  - rewrite Hp. symmetry. apply prevPage_same_iff.
  - intros H. apply Hn in H. unfold on_next. fold s.
    apply Z.ltb_nlt in H. by rewrite H.
  - intros H. apply Hp in H. unfold on_prev. fold s.
    apply Z.ltb_nlt in H. by rewrite H.
Qed.

Lemma disabled_buttons_are_dead_witness :
  let net : Network := λ _, Some ("a" +:+ Str.nl +:+ "1" +:+ Str.nl +:+ "2") in
  let st := {| currentDataset := "field"; rawData := []; cleanedData := [];
               dataStats := calculateStats [] [];
               paginationState := initial_pagination |} in
  let blank := {| body := NoDataRow; page_info := ""; prev_disabled := false;
                  next_disabled := false |} in
  let ui := {| ui_raw := blank; ui_cleaned := blank |} in
  let w := step_ui net (st, initializeDataTables st ui) (Load "sales") in
  next_disabled (ui_of w.2 RawView) = true ∧ nextPage RawView w.1 = w.1.
Proof.
  intros net st blank ui w.
  assert (Hreach : reachable_ui net w).
  { subst w. apply reach_ui_step; [|exact I]. by apply reach_ui_init. }
  assert (Hne : filteredData (view_of (paginationState w.1) RawView) ≠ [])
    by (vm_compute; discriminate).
  destruct (disabled_buttons_are_dead net w RawView Hreach Hne) as (Hnext & _).
  assert (Hd : next_disabled (ui_of w.2 RawView) = true) by (vm_compute; reflexivity).
  split; [exact Hd | by apply Hnext].
Defined.

(** X15: a search that matches no row draws the "no data" row and leaves
    the page-info text and both button flags as they were drawn before, and
    with a positive page size neither page button then changes the state,
    whatever the flags say. *)
Theorem empty_search_keeps_page_info (v : view) (term : string)
    (st : AppState) (ui : PageUI) :
  let w := on_search v term (st, ui) in
  filteredData (view_of (paginationState w.1) v) = [] →
  body (ui_of w.2 v) = NoDataRow
  ∧ page_info (ui_of w.2 v) = page_info (ui_of ui v)
  ∧ prev_disabled (ui_of w.2 v) = prev_disabled (ui_of ui v)
  ∧ next_disabled (ui_of w.2 v) = next_disabled (ui_of ui v)
  ∧ (0 < itemsPerPage (view_of (paginationState st) v) →
     on_next v w = w ∧ on_prev v w = w).
Proof.
  intros w Hempty. subst w. unfold on_search in *. cbn [fst snd] in *.
  rewrite renderTable_same, Hempty. cbn [body page_info prev_disabled next_disabled].
  split_and!; try done.
  intros Hpos. set (st' := search v term st) in *.
  set (s := view_of (paginationState st') v) in *.
  assert (Hs : currentPage s = 1 ∧ itemsPerPage s = itemsPerPage (view_of (paginationState st) v)).
  { subst s st'. unfold search. by rewrite filterData_view. }
  destruct Hs as [Hcp Hipp].
  assert (Hmax : maxPage s = 0).
  { destruct (maxPage_ceiling s) as [Hup Hlo]; [lia|].
    rewrite Hempty in Hup, Hlo. simpl in Hup, Hlo. nia. }
  split.
  - unfold on_next. cbn [fst snd]. fold s. rewrite Hcp, Hmax. done.
  - unfold on_prev. cbn [fst snd]. fold s. rewrite Hcp. done.
Qed.

Lemma empty_search_keeps_page_info_witness :
  let rows : list Row := [ {[ "id" := Some "1" ]}; {[ "id" := Some "2" ]} ] in
  let st := {| currentDataset := "field"; rawData := rows; cleanedData := rows;
               dataStats := calculateStats rows rows;
               paginationState :=
                 {| pg_raw := {| currentPage := 1; itemsPerPage := 1;
                                 filteredData := rows |};
                    pg_cleaned := {| currentPage := 1; itemsPerPage := 1;
                                     filteredData := rows |} |} |} in
  let blank := {| body := NoDataRow; page_info := ""; prev_disabled := false;
                  next_disabled := false |} in
  let ui := initializeDataTables st {| ui_raw := blank; ui_cleaned := blank |} in
  let w := on_search RawView "zzz" (st, ui) in
  page_info (ui_of w.2 RawView) = "Page 1 of 2"
  ∧ next_disabled (ui_of w.2 RawView) = false
  ∧ on_next RawView w = w.
Proof.
  intros rows st blank ui w.
  assert (Hempty : filteredData (view_of (paginationState w.1) RawView) = [])
    by (vm_compute; reflexivity).
  destruct (empty_search_keeps_page_info RawView "zzz" st ui Hempty)
    as (_ & Hinfo & _ & Hnext & Hdead).
  subst w. split_and!.
  - rewrite Hinfo. vm_compute. reflexivity.
  - rewrite Hnext. vm_compute. reflexivity.
  - apply Hdead. simpl. lia.
Defined.

(** ** Column analytics *)









(** *** Null counts by column and by row *)










(** ** The flowchart viewer *)

Lemma Qle_bool_cases (a b : Q) :
  (Qle_bool a b = true ∧ (a <= b)%Q) ∨ (Qle_bool a b = false ∧ (b < a)%Q).
Proof.
  destruct (Qle_bool a b) eqn:E.
  - left. split; [done|]. by apply Qle_bool_iff.
  - right. split; [done|]. apply Qnot_le_lt. intros H.
    apply Qle_bool_iff in H. congruence.
Qed.

Lemma Qlt_bool_cases (a b : Q) :
  (Qlt_bool a b = true ∧ (a < b)%Q) ∨ (Qlt_bool a b = false ∧ (b <= a)%Q).
Proof.
  unfold Qlt_bool. destruct (Qle_bool_cases b a) as [[-> H]|[-> H]]; auto.
Qed.

Lemma Math_min_cases (a b : Q) :
  ((a <= b)%Q ∧ Math_min a b = a) ∨ ((b < a)%Q ∧ Math_min a b = b).
Proof.
  unfold Math_min. destruct (Qle_bool_cases a b) as [[-> H]|[-> H]]; auto.
Qed.

Lemma Math_max_cases (a b : Q) :
  ((a <= b)%Q ∧ Math_max a b = b) ∨ ((b < a)%Q ∧ Math_max a b = a).
Proof.
  unfold Math_max. destruct (Qle_bool_cases a b) as [[-> H]|[-> H]]; auto.
Qed.

Lemma quarter_step (x : Q) (k : Z) :
  (x == inject_Z k / 4)%Q →
  (x + SCALE_STEP == inject_Z (k + 1) / 4)%Q
  ∧ (x - SCALE_STEP == inject_Z (k - 1) / 4)%Q.
Proof.
  intros H. unfold SCALE_STEP, Z.sub. rewrite !inject_Z_plus, inject_Z_opp, H.
  change (inject_Z 1) with 1%Q. generalize (inject_Z k). intros q.
  unfold Qdiv. change (/ 4)%Q with (1 # 4)%Q. split; lra.
Qed.

Lemma scale_ok_set (x : Q) (s : Viewer) :
  (MIN_SCALE <= x <= MAX_SCALE)%Q → (∃ k : Z, (x == inject_Z k / 4)%Q) →
  scale_ok (set_scale x s).
Proof. intros H1 H2. by split. Qed.

Lemma zoomIn_ok (s : Viewer) : scale_ok s → scale_ok (zoomIn s).
Proof.
  intros Hs. pose proof Hs as [Hr [k Hk]]. unfold zoomIn.
  destruct (Qlt_bool_cases (scale s) MAX_SCALE) as [[-> Hlt]|[-> _]]; [|done].
  unfold MIN_SCALE, MAX_SCALE, SCALE_STEP in *.
  destruct (Math_min_cases (scale s + (1 # 4)) 5) as [[Hc ->]|[Hc ->]].
  - apply scale_ok_set; [unfold MIN_SCALE, MAX_SCALE; split; lra|]. exists (k + 1). by apply quarter_step.
  - apply scale_ok_set; [unfold MIN_SCALE, MAX_SCALE; split; lra|]. by exists 20.
Qed.

Lemma zoomOut_ok (s : Viewer) : scale_ok s → scale_ok (zoomOut s).
Proof.
  intros Hs. pose proof Hs as [Hr [k Hk]]. unfold zoomOut.
  destruct (Qlt_bool_cases MIN_SCALE (scale s)) as [[-> Hlt]|[-> _]]; [|done].
  unfold MIN_SCALE, MAX_SCALE, SCALE_STEP in *.
  destruct (Math_max_cases (scale s - (1 # 4)) (1 # 2)) as [[Hc ->]|[Hc ->]].
  - apply scale_ok_set; [unfold MIN_SCALE, MAX_SCALE; split; lra|]. by exists 2.
  - apply scale_ok_set; [unfold MIN_SCALE, MAX_SCALE; split; lra|]. exists (k - 1). by apply quarter_step.
Qed.

Lemma on_wheel_ok (deltaY : Z) (s : Viewer) : scale_ok s → scale_ok (on_wheel deltaY s).
Proof.
  intros Hs. pose proof Hs as [Hr [k Hk]]. unfold on_wheel.
  destruct (loaded s); [|done].
  destruct (negb (Qeq_bool _ _)); [|done].
  unfold MIN_SCALE, MAX_SCALE, SCALE_STEP in *.
  apply scale_ok_set; unfold MIN_SCALE, MAX_SCALE.
  - destruct (Math_max_cases (1 # 2)
                (Math_min 5 (scale s + (if 0 <? deltaY then - (1 # 4) else 1 # 4))))
      as [[Hc ->]|[Hc ->]]; [|split; lra].
    destruct (Math_min_cases 5 (scale s + (if 0 <? deltaY then - (1 # 4) else 1 # 4)))
      as [[Hd Hm]|[Hd Hm]]; rewrite Hm in *; split; lra.
  - destruct (Math_max_cases (1 # 2)
                (Math_min 5 (scale s + (if 0 <? deltaY then - (1 # 4) else 1 # 4))))
      as [[Hc ->]|[Hc ->]]; [|by exists 2].
    destruct (Math_min_cases 5 (scale s + (if 0 <? deltaY then - (1 # 4) else 1 # 4)))
      as [[Hd ->]|[Hd ->]]; [by exists 20|].
    destruct (0 <? deltaY).
    + exists (k - 1). by apply (quarter_step _ k).
    + exists (k + 1). by apply (quarter_step _ k).
Qed.

Lemma viewer_step_ok (s : Viewer) (e : viewer_event) :
  scale_ok s → scale_ok (viewer_step s e).
Proof.
  intros Hs. destruct e; cbn [viewer_step].
  - by apply zoomIn_ok.
  - by apply zoomOut_ok.
  - split; [unfold MIN_SCALE, MAX_SCALE; simpl; split; lra | by exists 4].
  - done.
  - by apply on_wheel_ok.
  - unfold on_mousedown. by destruct (_ && _).
  - unfold on_mousemove. by destruct (isDragging s).
  - unfold on_mouseup. by destruct (isDragging s).
  - unfold on_touchstart. by destruct (_ && _).
  - unfold on_touchmove. by destruct (isDragging s).
  - done.
  - unfold on_keydown. by destruct (_ && _).
  - done.
  - done.
Qed.

Lemma zoom_percent_grid (s : Viewer) (k : Z) :
  (scale s == inject_Z k / 4)%Q → zoom_percent s = 25 * k.
Proof.
  intros Hk. unfold zoom_percent.
  assert (E : (scale s * 100 + (1 # 2) == inject_Z (25 * k) + (1 # 2))%Q).
  { rewrite Hk, inject_Z_mult. change (inject_Z 25) with 25%Q.
    unfold Qdiv. change (/ 4)%Q with (1 # 4)%Q. ring. }
  rewrite E.
  pose proof (Qfloor_le (inject_Z (25 * k) + (1 # 2))) as Hlo.
  pose proof (Qlt_floor (inject_Z (25 * k) + (1 # 2))) as Hhi.
  set (t := Qfloor (inject_Z (25 * k) + (1 # 2))) in *.
  unfold Qle, Qlt, Qplus, inject_Z in Hlo, Hhi. simpl in Hlo, Hhi. lia.
Qed.

(** X18: the zoom never leaves its range. From the initial viewer, after
    any sequence of button, wheel, mouse, touch, key and image events the
    scale is between 0.5 and 5 and a multiple of 0.25, so the zoom level
    shown is a multiple of 25 between 50 and 500 percent. *)
Theorem viewer_scale_range :
  scale_ok initial_viewer
  ∧ (∀ s e, scale_ok s → scale_ok (viewer_step s e))
  ∧ (∀ s, viewer_reachable s →
       (MIN_SCALE <= scale s <= MAX_SCALE)%Q
       ∧ ∃ k : Z, (scale s == inject_Z k / 4)%Q
                  ∧ zoom_percent s = 25 * k ∧ 50 ≤ zoom_percent s ≤ 500).
Proof.
  assert (Hinit : scale_ok initial_viewer).
  { split; [unfold MIN_SCALE, MAX_SCALE; simpl; split; lra | by exists 4]. }
  split_and!; [done | apply viewer_step_ok |].
  intros s Hreach.
  assert (Hok : scale_ok s).
  { induction Hreach; [done | by apply viewer_step_ok]. }
  destruct Hok as [Hr [k Hk]]. split; [done|]. exists k.
  pose proof (zoom_percent_grid s k Hk) as Hz. split_and!; [done..| |].
  - rewrite Hz. unfold MIN_SCALE in Hr. rewrite Hk in Hr. destruct Hr as [Hlo _].
    unfold Qle, Qdiv, Qmult, Qinv, inject_Z in Hlo. simpl in Hlo. lia.
  - rewrite Hz. unfold MAX_SCALE in Hr. rewrite Hk in Hr. destruct Hr as [_ Hhi].
    unfold Qle, Qdiv, Qmult, Qinv, inject_Z in Hhi. simpl in Hhi. lia.
Qed.

Lemma viewer_scale_range_witness :
  let s := viewer_step (viewer_step (viewer_step initial_viewer ImageLoad) (Wheel 0)) ZoomIn in
  scale_ok s ∧ zoom_percent s = 150.
Proof.
  intros s. split; [|vm_compute; reflexivity].
  destruct viewer_scale_range as (Hinit & Hstep & _).
  subst s. repeat apply Hstep. exact Hinit.
Defined.

(** *** Zooming in and out *)

Lemma zoomIn_scale (s : Viewer) :
  (scale s <= MAX_SCALE)%Q →
  ((scale s + SCALE_STEP <= MAX_SCALE)%Q → (scale (zoomIn s) == scale s + SCALE_STEP)%Q)
  ∧ ((MAX_SCALE < scale s + SCALE_STEP)%Q → (scale (zoomIn s) == MAX_SCALE)%Q).
Proof.
  intros Hr. unfold zoomIn, MAX_SCALE, SCALE_STEP in *.
  destruct (Qlt_bool_cases (scale s) 5) as [[-> Hlt]|[-> Hge]]; cbn [scale set_scale].
  - destruct (Math_min_cases (scale s + (1 # 4)) 5) as [[Hc ->]|[Hc ->]];
      split; intros; lra.
  - split; intros; lra.
Qed.

Lemma zoomOut_scale (s : Viewer) :
  (MIN_SCALE <= scale s)%Q →
  ((MIN_SCALE <= scale s - SCALE_STEP)%Q → (scale (zoomOut s) == scale s - SCALE_STEP)%Q)
  ∧ ((scale s - SCALE_STEP < MIN_SCALE)%Q → (scale (zoomOut s) == MIN_SCALE)%Q).
Proof.
  intros Hr. unfold zoomOut, MIN_SCALE, SCALE_STEP in *.
  destruct (Qlt_bool_cases (1 # 2) (scale s)) as [[-> Hlt]|[-> Hge]]; cbn [scale set_scale].
  - destruct (Math_max_cases (scale s - (1 # 4)) (1 # 2)) as [[Hc ->]|[Hc ->]];
      split; intros; lra.
  - split; intros; lra.
Qed.

Lemma on_wheel_scale (deltaY : Z) (s : Viewer) :
  loaded s = true →
  (scale (on_wheel deltaY s)
   == Math_max MIN_SCALE
        (Math_min MAX_SCALE
           (scale s + (if 0 <? deltaY then - SCALE_STEP else SCALE_STEP))))%Q.
Proof.
  intros Hl. unfold on_wheel. rewrite Hl.
  destruct (Qeq_bool _ (scale s)) eqn:E; cbn [negb scale set_scale]; [|reflexivity].
  apply Qeq_bool_iff in E. by rewrite E.
Qed.

(** X19: within the range, zooming in and then out (or out and then in)
    gives back the scale; zooming in at 5 and zooming out at 0.5 change
    nothing. On a loaded image a wheel event with [deltaY > 0] sets the
    scale that the zoom-out button sets and any other wheel event, also one
    with [deltaY = 0], the scale that the zoom-in button sets; on an image
    that is not loaded the wheel changes nothing. *)
Theorem zoom_steps (s : Viewer) :
  (MIN_SCALE <= scale s <= MAX_SCALE)%Q →
  ((scale s + SCALE_STEP <= MAX_SCALE)%Q → (scale (zoomOut (zoomIn s)) == scale s)%Q)
  ∧ ((MIN_SCALE <= scale s - SCALE_STEP)%Q → (scale (zoomIn (zoomOut s)) == scale s)%Q)
  ∧ ((scale s == MAX_SCALE)%Q → zoomIn s = s)
  ∧ ((scale s == MIN_SCALE)%Q → zoomOut s = s)
  ∧ (∀ deltaY, loaded s = true → 0 < deltaY →
       (scale (on_wheel deltaY s) == scale (zoomOut s))%Q)
  ∧ (∀ deltaY, loaded s = true → deltaY ≤ 0 →
       (scale (on_wheel deltaY s) == scale (zoomIn s))%Q)
  ∧ (∀ deltaY, loaded s = false → on_wheel deltaY s = s).
Proof.
  intros [Hlo Hhi].
  destruct (zoomIn_scale s Hhi) as [Hin1 Hin2].
  destruct (zoomOut_scale s Hlo) as [Hout1 Hout2].
  refine (conj _ (conj _ (conj _ (conj _ (conj _ (conj _ _)))))).
  - intros Hroom. specialize (Hin1 Hroom).
    assert (Hlo' : (MIN_SCALE <= scale (zoomIn s))%Q).
    { rewrite Hin1. unfold MIN_SCALE, SCALE_STEP in *. lra. }
    destruct (zoomOut_scale (zoomIn s) Hlo') as [H1 _].
    rewrite H1; rewrite Hin1; unfold MIN_SCALE, SCALE_STEP in *; lra.
  - intros Hroom. specialize (Hout1 Hroom).
    assert (Hhi' : (scale (zoomOut s) <= MAX_SCALE)%Q).
    { rewrite Hout1. unfold MAX_SCALE, SCALE_STEP in *. lra. }
    destruct (zoomIn_scale (zoomOut s) Hhi') as [H1 _].
    rewrite H1; rewrite Hout1; unfold MAX_SCALE, SCALE_STEP in *; lra.
  - intros Hmax. unfold zoomIn.
    destruct (Qlt_bool_cases (scale s) MAX_SCALE) as [[_ Hlt]|[-> _]]; [|done].
    rewrite Hmax in Hlt. by apply Qlt_irrefl in Hlt.
  - intros Hmin. unfold zoomOut.
    destruct (Qlt_bool_cases MIN_SCALE (scale s)) as [[_ Hlt]|[-> _]]; [|done].
    rewrite Hmin in Hlt. by apply Qlt_irrefl in Hlt.
  - intros deltaY Hl Hd. rewrite (on_wheel_scale deltaY s Hl).
    apply Z.ltb_lt in Hd. rewrite Hd.
    unfold MIN_SCALE, MAX_SCALE, SCALE_STEP in *.
    destruct (Math_min_cases 5 (scale s + - (1 # 4))) as [[Hc ->]|[Hc ->]]; [lra|].
    destruct (Math_max_cases (1 # 2) (scale s + - (1 # 4))) as [[Hm ->]|[Hm ->]].
    + destruct (Qlt_le_dec (scale s - (1 # 4)) (1 # 2)) as [Hx|Hx].
      * assert (Hs : (scale s == 1 # 2)%Q) by lra.
        rewrite (Hout2 Hx). lra.
      * rewrite (Hout1 Hx). lra.
    + rewrite Hout2 by lra. reflexivity.
  - intros deltaY Hl Hd. rewrite (on_wheel_scale deltaY s Hl).
    apply Z.ltb_ge in Hd. rewrite Hd.
    unfold MIN_SCALE, MAX_SCALE, SCALE_STEP in *.
    destruct (Math_min_cases 5 (scale s + (1 # 4))) as [[Hc ->]|[Hc ->]].
    + destruct (Math_max_cases (1 # 2) 5) as [[Hm ->]|[Hm ->]]; [|lra].
      destruct (Qlt_le_dec 5 (scale s + (1 # 4))) as [Hx|Hx].
      * rewrite (Hin2 Hx). reflexivity.
      * rewrite (Hin1 Hx). lra.
    + destruct (Math_max_cases (1 # 2) (scale s + (1 # 4))) as [[Hm ->]|[Hm ->]];
        [|lra].
      rewrite Hin1 by lra. reflexivity.
  - intros deltaY Hl. unfold on_wheel. by rewrite Hl.
Qed.

Lemma zoom_steps_witness :
  let s := set_loaded true initial_viewer in
  (scale (zoomOut (zoomIn s)) == scale s)%Q
  ∧ (scale (on_wheel 0 s) == scale (zoomIn s))%Q.
Proof.
  intros s.
  assert (Hr : (MIN_SCALE <= scale s <= MAX_SCALE)%Q).
  { unfold MIN_SCALE, MAX_SCALE. simpl. split; lra. }
  destruct (zoom_steps s Hr) as (Hback & _ & _ & _ & _ & Hwheel & _).
  split.
  - apply Hback. unfold MAX_SCALE, SCALE_STEP. simpl. lra.
  - apply Hwheel; [reflexivity | lia].
Defined.

(** *** Panning *)



(** X21: the zoom buttons, the wheel, the fullscreen toggle, the keys and
    the image events never move the image: only a move during a drag and
    the reset change the translation, and the reset puts back scale 1 and
    translation (0, 0). So an image panned at a high zoom keeps its offset
    when zoomed back to 100 percent or less, where no new drag starts. *)
Theorem translation_changes (s : Viewer) (e : viewer_event) :
  (match e with
   | MouseMove _ _ | TouchMove _ _ | ZoomReset => False
   | _ => True
   end →
   translateX (viewer_step s e) = translateX s
   ∧ translateY (viewer_step s e) = translateY s)
  ∧ (isDragging s = false → e ≠ ZoomReset →
     translateX (viewer_step s e) = translateX s
     ∧ translateY (viewer_step s e) = translateY s)
  ∧ ((scale s <= 1)%Q → isDragging s = false →
     match e with
     | ZoomIn | Wheel _ | ZoomReset => True
     | _ => isDragging (viewer_step s e) = false
            ∧ translateX (viewer_step s e) = translateX s
            ∧ translateY (viewer_step s e) = translateY s
     end)
  ∧ (scale (resetZoom s) = 1%Q
     ∧ translateX (resetZoom s) = 0 ∧ translateY (resetZoom s) = 0).
Proof.
  split_and!; try done.
  - intros He. destruct e; try done; cbn [viewer_step].
    + unfold zoomIn. by destruct (Qlt_bool _ _).
    + unfold zoomOut. by destruct (Qlt_bool _ _).
    + unfold on_wheel. destruct (loaded s); [|done].
      by destruct (negb _).
    + unfold on_mousedown. by destruct (_ && _).
    + unfold on_mouseup. by destruct (isDragging s).
    + unfold on_touchstart. by destruct (_ && _).
    + unfold on_keydown. by destruct (_ && _).
  - intros Hd He. destruct e; try done; cbn [viewer_step].
    + unfold zoomIn. by destruct (Qlt_bool _ _).
    + unfold zoomOut. by destruct (Qlt_bool _ _).
    + unfold on_wheel. destruct (loaded s); [|done]. by destruct (negb _).
    + unfold on_mousedown. by destruct (_ && _).
    + unfold on_mousemove. by rewrite Hd.
    + unfold on_mouseup. by destruct (isDragging s).
    + unfold on_touchstart. by destruct (_ && _).
    + unfold on_touchmove. by rewrite Hd.
    + unfold on_keydown. by destruct (_ && _).
  - intros Hle Hd. destruct e; try done; cbn [viewer_step].
    + unfold zoomOut. by destruct (Qlt_bool _ _).
    + unfold on_mousedown.
      destruct (Qlt_bool_cases 1 (scale s)) as [[_ Hlt]|[-> _]]; [lra|].
      by rewrite andb_false_r.
    + unfold on_mousemove. by rewrite Hd.
    + unfold on_mouseup. by rewrite Hd.
    + unfold on_touchstart.
      destruct (Qlt_bool_cases 1 (scale s)) as [[_ Hlt]|[-> _]]; [lra|].
      by rewrite andb_false_r.
    + unfold on_touchmove. by rewrite Hd.
    + unfold on_keydown. by destruct (_ && _).
Qed.

Lemma translation_changes_witness :
  let s := on_mouseup (on_mousemove 130 90 (on_mousedown 100 100
             (zoomIn (set_loaded true initial_viewer)))) in
  translateX (viewer_step s ZoomOut) = 30
  ∧ isDragging (viewer_step (viewer_step s ZoomOut) (MouseDown 0 0)) = false.
Proof.
  intros s.
  destruct (translation_changes s ZoomOut) as (Hkeep & _).
  destruct (translation_changes (viewer_step s ZoomOut) (MouseDown 0 0))
    as (_ & _ & Hstuck & _).
  split.
  - rewrite (proj1 (Hkeep I)). vm_compute. reflexivity.
  - apply Hstuck; [vm_compute; discriminate | vm_compute; reflexivity].
Defined.

(** ** Quality indicators *)

Lemma indicator_ids (v : view) (m m' : metric) :
  bar_id v m ≠ value_id v m'
  ∧ (m ≠ m' → bar_id v m ≠ bar_id v m' ∧ value_id v m ≠ value_id v m').
Proof. destruct v, m, m'; vm_compute; split; intros; try split; congruence. Qed.

Lemma update_indicator_other (v : view) (m : metric) (data : SideStats)
    (doc : Document) (id : string) :
  id ≠ bar_id v m → id ≠ value_id v m →
  update_indicator v m data doc !! id = doc !! id.
Proof.
  intros Hb Hv. unfold update_indicator.
  destruct (doc !! bar_id v m), (doc !! value_id v m); try done.
  by rewrite !lookup_insert_ne.
Qed.

Lemma update_indicator_same (v : view) (m : metric) (data : SideStats)
    (doc : Document) (bar val : Element) :
  doc !! bar_id v m = Some bar → doc !! value_id v m = Some val →
  update_indicator v m data doc !! bar_id v m
  = Some {| style_width := metric_value m data; text_percent := text_percent bar;
            classList := set_status (metric_value m data) (classList bar) |}
  ∧ update_indicator v m data doc !! value_id v m
    = Some {| style_width := style_width val; text_percent := metric_value m data;
              classList := classList val |}.
Proof.
  intros Hb Hv. unfold update_indicator. rewrite Hb, Hv.
  destruct (indicator_ids v m m) as [Hne _].
  rewrite lookup_insert_eq, lookup_insert_ne, lookup_insert_eq by done. done.
Qed.

Lemma update_indicator_congr (v : view) (m : metric) (data : SideStats)
    (d1 d2 : Document) (id : string) :
  id = bar_id v m ∨ id = value_id v m →
  d1 !! bar_id v m = d2 !! bar_id v m →
  d1 !! value_id v m = d2 !! value_id v m →
  update_indicator v m data d1 !! id = update_indicator v m data d2 !! id.
Proof.
  intros Hid Hb Hv. unfold update_indicator. rewrite Hb, Hv.
  destruct (indicator_ids v m m) as [Hne _].
  destruct (d2 !! bar_id v m) as [bar|] eqn:Eb.
  - destruct (d2 !! value_id v m) as [val|] eqn:Ev.
    + destruct Hid as [->| ->].
      * by rewrite !lookup_insert_eq.
      * rewrite !(lookup_insert_ne _ (bar_id v m)) by done.
        by rewrite !lookup_insert_eq.
    + destruct Hid as [->| ->]; congruence.
  - destruct Hid as [->| ->]; congruence.
Qed.

#[local] Set Warnings "-clear-no-such-hyp".

Lemma set_status_spec (x : Q) (classes : gset string) :
  ("success" ∈ set_status x classes ↔ (95 <= x)%Q)
  ∧ ("warning" ∈ set_status x classes ↔ (80 <= x)%Q ∧ (x < 95)%Q)
  ∧ ("error" ∈ set_status x classes ↔ (x < 80)%Q)
  ∧ (∀ c, c ∉ status_classes → (c ∈ set_status x classes ↔ c ∈ classes)).
Proof.
  unfold set_status, status_classes.
  destruct (Qle_bool_cases 95 x) as [[-> H95]|[-> H95]].
  - split_and!; [| | |set_solver].
    + split; [done|]. intros _. set_solver.
    + split; [set_solver | lra].
    + split; [set_solver | lra].
  - destruct (Qle_bool_cases 80 x) as [[-> H80]|[-> H80]].
    + split_and!; [| | |set_solver].
      * split; [set_solver | lra].
      * split; [done|]. intros _. set_solver.
      * split; [set_solver | lra].
    + split_and!; [| | |set_solver].
      * split; [set_solver | lra].
      * split; [set_solver | lra].
      * split; [done|]. intros _. set_solver.
Qed.

(** X22: after [updateQualityIndicators] every indicator whose bar and
    value elements both exist shows its percentage, and its bar carries
    exactly one of the classes success (95 and more), warning (80 up to
    95) and error (below 80), whatever it carried before, with its other
    classes kept; an indicator with a missing element and every other
    element of the page are left as they are. *)
Theorem indicators_status (v : view) (stats : DataStats) (doc : Document) :
  let doc' := updateQualityIndicators v stats doc in
  (∀ m bar val,
     doc !! bar_id v m = Some bar → doc !! value_id v m = Some val →
     let x := metric_value m (side_of v stats) in
     ∃ bar' val',
       doc' !! bar_id v m = Some bar' ∧ doc' !! value_id v m = Some val'
       ∧ style_width bar' = x ∧ text_percent val' = x
       ∧ classList val' = classList val
       ∧ ("success" ∈ classList bar' ↔ (95 <= x)%Q)
       ∧ ("warning" ∈ classList bar' ↔ (80 <= x)%Q ∧ (x < 95)%Q)
       ∧ ("error" ∈ classList bar' ↔ (x < 80)%Q)
       ∧ (∀ c, c ∉ status_classes → (c ∈ classList bar' ↔ c ∈ classList bar)))
  ∧ (∀ m, doc !! bar_id v m = None ∨ doc !! value_id v m = None →
       doc' !! bar_id v m = doc !! bar_id v m
       ∧ doc' !! value_id v m = doc !! value_id v m)
  ∧ (∀ id, (∀ m, id ≠ bar_id v m ∧ id ≠ value_id v m) → doc' !! id = doc !! id).
Proof.
  intros doc'. subst doc'. unfold updateQualityIndicators.
  set (data := side_of v stats).
  assert (Hpair : ∀ m m' d id,
            m ≠ m' → id = bar_id v m ∨ id = value_id v m →
            update_indicator v m' data d !! id = d !! id).
  { intros m m' d id Hne Hid.
    destruct (indicator_ids v m m') as [H1 H2]. destruct (H2 Hne) as [H3 H4].
    destruct (indicator_ids v m' m) as [H5 _].
    apply update_indicator_other; destruct Hid as [->| ->]; congruence. }
  assert (Hother : ∀ m m' d id,
            m ≠ m' → id = bar_id v m ∨ id = value_id v m →
            update_indicator v m' data d !! id = d !! id) by exact Hpair.
  assert (Hone : ∀ m d,
            (update_indicator v Consistency data
               (update_indicator v Validity data
                  (update_indicator v Completeness data d))) !! bar_id v m
            = update_indicator v m data d !! bar_id v m
            ∧ (update_indicator v Consistency data
                 (update_indicator v Validity data
                    (update_indicator v Completeness data d))) !! value_id v m
              = update_indicator v m data d !! value_id v m).
  { intros m d. destruct m.
    - split.
      + rewrite (Hother Completeness Consistency) by (auto; discriminate).
        by rewrite (Hother Completeness Validity) by (auto; discriminate).
      + rewrite (Hother Completeness Consistency) by (auto; discriminate).
        by rewrite (Hother Completeness Validity) by (auto; discriminate).
    - split.
      + rewrite (Hother Validity Consistency) by (auto; discriminate).
        apply update_indicator_congr; [auto|..];
          by rewrite (Hother Validity Completeness) by (auto; discriminate).
      + rewrite (Hother Validity Consistency) by (auto; discriminate).
        apply update_indicator_congr; [auto|..];
          by rewrite (Hother Validity Completeness) by (auto; discriminate).
    - split.
      + apply update_indicator_congr; [auto|..];
          rewrite (Hother Consistency Validity) by (auto; discriminate);
          by rewrite (Hother Consistency Completeness) by (auto; discriminate).
      + apply update_indicator_congr; [auto|..];
          rewrite (Hother Consistency Validity) by (auto; discriminate);
          by rewrite (Hother Consistency Completeness) by (auto; discriminate). }
  split_and!.
  - intros m bar val Hb Hv. set (x := metric_value m data).
    destruct (Hone m doc) as [-> ->].
    destruct (update_indicator_same v m data doc bar val Hb Hv) as [-> ->].
    eexists _, _. split; [done|]. split; [done|]. cbn [style_width text_percent classList].
    destruct (set_status_spec x (classList bar)) as (H1 & H2 & H3 & H4).
    split_and!; try done.
  - intros m Hmiss. destruct (Hone m doc) as [-> ->]. unfold update_indicator.
    destruct Hmiss as [H|H]; rewrite H; [done|].
    destruct (doc !! bar_id v m) eqn:Eb; split; congruence.
  - intros id Hid.
    rewrite !update_indicator_other; try done; apply Hid.
Qed.

Lemma indicators_status_witness :
  let stats := calculateStats [ {[ "a" := Some "1" ]}; {[ "a" := None ]} ]
                              [ {[ "a" := Some "1" ]} ] in
  let blank := {| style_width := 0; text_percent := 0; classList := {[ "bar"; "success" ]} |} in
  let doc : Document := {[ "raw-validity-bar" := blank; "raw-validity" := blank ]} in
  ∃ bar', updateQualityIndicators RawView stats doc !! "raw-validity-bar" = Some bar'
          ∧ "error" ∈ classList bar' ∧ "bar" ∈ classList bar'.
Proof.
  intros stats blank doc.
  destruct (indicators_status RawView stats doc) as (Hshow & _).
  destruct (Hshow Validity blank blank) as (bar' & val' & Hb & _ & _ & _ & _ & _ & _ & He & Hc);
    [reflexivity..|].
  exists bar'. split_and!; [exact Hb | |].
  - apply He. vm_compute. reflexivity.
  - apply Hc; [|set_solver]. unfold status_classes. set_solver.
Defined.
